(** * flow-engine: the approval graph, its handler registry and the
      single-step traversal [ProcessNode]

    A shallow embedding of package [approval] (define.go and the engine
    file holding [Graph], [ProcessRegistry] and [ProcessHandler]).

    Modelling choices.
    - Go maps are [gmap]s.  Ranging over a Go map visits every entry once,
      in an order the language leaves unspecified and that may change from
      one loop to the next.  Every function that ranges over [p.edges]
      therefore takes the sequence [iter] of keys that its loop visits as
      an explicit argument; [MapRange m iter] says that [iter] is one of
      the sequences the loop may follow, every key of [m] once.
    - Handlers are caller-supplied and may have effects.  They are functions
      on an abstract world [W]; the engine threads the world through the
      calls and appends one [Event] to a log at every handler invocation, so
      that "is invoked", "is never invoked" and "in this order" are
      statements about the log.
    - [*Process] is a pointer: [NewProcess] returns the graph together with
      the definition as the caller sees it once the constructor returns.
    - [context.Context] is handed unchanged to every handler and never
      inspected by the engine; it is part of the world. *)

From Stdlib Require Import ZArith.
From stdpp Require Import base strings list gmap sorting.

Local Open Scope Z_scope.

(** ** define.go *)

Definition NodeType := string.
Definition EdgeType := string.

(** [pgtype.JSONB], of the imported library: a byte blob and a status tag. *)
Inductive Status := Undefined | Null | Present.

Record JSONB := mkJSONB {
  Bytes : list Byte.byte;
  JSONB_Status : Status
}.

Record Node := mkNode {
  Node_Name : string;
  Node_ID : string;
  Node_NodeType : NodeType;
  Node_NodeExtras : JSONB
}.

Record Edge := mkEdge {
  Edge_ID : string;
  Edge_DstID : string;
  Edge_SrcID : string;
  Edge_Priority : Z;
  Edge_EdgeType : EdgeType;
  Edge_EdgeExtras : JSONB
}.

Record Process := mkProcess {
  Nodes : list Node;
  Edges : list Edge
}.

(** ** The graph *)

Record Graph := mkGraph {
  nodes : gmap string Node;
  edges : gmap string Edge
}.

(** The comparison handed to [sort.Slice] in [NewProcess]. *)
Definition less (a b : Edge) : bool := Edge_Priority a <? Edge_Priority b.

(** [sort.Slice] on a short slice is the insertion sort
      for i := a + 1; i < b; i++ {
        for j := i; j > a && less(j, j-1); j-- { swap(j, j-1) } }
    [sift x done] is the inner loop: [done] is the part of the slice in
    front of [x], nearest element first, and [x] moves towards the front
    while it is [lt] than the element just before it.  On a slice of more
    than 12 elements Go runs an unstable pattern-defeating quicksort, which
    may leave elements of equal priority in another order than this
    function does: the model is exact up to the order of ties.  The
    statements below use only that the outcome is a rearrangement in
    ascending order, which is all [sort.Slice] promises at any length, or
    evaluate slices of two elements. *)
Fixpoint sift {A} (lt : A → A → bool) (x : A) (done : list A) : list A :=
  match done with
  | [] => [x]
  | y :: done' => if lt x y then y :: sift lt x done' else x :: y :: done'
  end.

Definition sort_Slice {A} (lt : A → A → bool) (l : list A) : list A :=
  reverse (foldl (λ done x, sift lt x done) [] l).

(** [NewProcess]: index the nodes and the edges by ID (a later entry with
    the same ID replaces an earlier one), then sort [process.Edges] in
    place.  The second component is the caller's definition afterwards. *)
Definition NewProcess (process : Process) : Graph * Process :=
  let p_nodes := foldl (λ m node, <[Node_ID node := node]> m) ∅ (Nodes process) in
  let p_edges := foldl (λ m edge, <[Edge_ID edge := edge]> m) ∅ (Edges process) in
  (mkGraph p_nodes p_edges,
   mkProcess (Nodes process) (sort_Slice less (Edges process))).

(** The sequences of keys a [range] loop over the map [m] may follow. *)
Definition MapRange {V} (m : gmap string V) (iter : list string) : Prop :=
  iter ≡ₚ (map_to_list m).*1.

Definition GetNodeByID (p : Graph) (nodeID : string) : option Node :=
  nodes p !! nodeID.

Definition GetOutgoingEdges (p : Graph) (iter : list string)
    (nodeID : string) : list Edge :=
  foldl (λ acc k,
           match edges p !! k with
           | Some edge =>
               if decide (Edge_SrcID edge = nodeID) then acc ++ [edge] else acc
           | None => acc
           end)
        [] iter.

Definition GetIncomingEdges (p : Graph) (iter : list string)
    (nodeID : string) : list Edge :=
  foldl (λ acc k,
           match edges p !! k with
           | Some edge =>
               if decide (Edge_DstID edge = nodeID) then acc ++ [edge] else acc
           | None => acc
           end)
        [] iter.

(** Errors.  The engine builds its own with [fmt.Errorf]; one constructor
    per message, carrying the value formatted into it.  [ErrHandler] stands
    for an error value made by caller code; a handler may return any
    [error]. *)
Inductive error :=
  | ErrNodeNotFound (nodeID : string)
  | ErrNodeHandlerNotFound (t : NodeType)
  | ErrEdgeHandlerNotFound (t : EdgeType)
  | ErrDestinationUnresolved (edgeID : string)
  | ErrHandler (msg : string).

Definition GetNextNodes (p : Graph) (iter : list string)
    (nodeID : string) : list Node * option error :=
  (foldl (λ nextNodes edge,
            match GetNodeByID p (Edge_DstID edge) with
            | Some nextNode => nextNodes ++ [nextNode]
            | None => nextNodes
            end)
         [] (GetOutgoingEdges p iter nodeID),
   None).

Definition GetNextNodeByEdge (p : Graph) (edge : Edge) : Node + error :=
  match GetNodeByID p (Edge_DstID edge) with
  | Some nextNode => inl nextNode
  | None => inr (ErrDestinationUnresolved (Edge_ID edge))
  end.

(** ** Handlers, the registry and the engine *)

(** One entry per call the engine makes into caller code. *)
Inductive Event :=
  | CallOn (node : Node)
  | CallDecide (edge : Edge)
  | CallAfter (node : Node)
  | CallCirculate (edge : Edge)
  | CallBefore (node : Node).

Section Engine.

Context {W : Type}.

Definition NodeHandlerFunc := Node → W → option error * W.
Definition NodeHandlerBeforeFunc := Node → W → option error * W.
Definition NodeHandlerAfterFunc := Node → W → option error * W.
Definition EdgeHandlerFunc := Edge → W → (bool * option error) * W.

(** The one method of interface [CirculateHandler]. *)
Definition CirculateHandler := Edge → W → (bool * option error) * W.

(** A nil Go map reads like the empty one, and every [Register*] allocates
    the map it writes to on first use.  A registered handler is a function;
    registering a nil function value is outside the model. *)
Record ProcessRegistry := mkRegistry {
  nodeHandlers : gmap string NodeHandlerFunc;
  nodeAfterHandlers : gmap string NodeHandlerAfterFunc;
  nodeBeforeHandlers : gmap string NodeHandlerBeforeFunc;
  edgeHandlers : gmap string EdgeHandlerFunc
}.

Definition NewProcessRegistry : ProcessRegistry := mkRegistry ∅ ∅ ∅ ∅.

Definition RegisterNodeHandler (r : ProcessRegistry) (nodeType : NodeType)
    (handler : NodeHandlerFunc) : ProcessRegistry :=
  mkRegistry (<[nodeType := handler]> (nodeHandlers r)) (nodeAfterHandlers r)
             (nodeBeforeHandlers r) (edgeHandlers r).

Definition RegisterNodeAfterHandler (r : ProcessRegistry) (nodeType : NodeType)
    (handler : NodeHandlerAfterFunc) : ProcessRegistry :=
  mkRegistry (nodeHandlers r) (<[nodeType := handler]> (nodeAfterHandlers r))
             (nodeBeforeHandlers r) (edgeHandlers r).

Definition RegisterNodeBeforeHandler (r : ProcessRegistry) (nodeType : NodeType)
    (handler : NodeHandlerBeforeFunc) : ProcessRegistry :=
  mkRegistry (nodeHandlers r) (nodeAfterHandlers r)
             (<[nodeType := handler]> (nodeBeforeHandlers r)) (edgeHandlers r).

Definition RegisterEdgeHandler (r : ProcessRegistry) (edgeType : EdgeType)
    (handler : EdgeHandlerFunc) : ProcessRegistry :=
  mkRegistry (nodeHandlers r) (nodeAfterHandlers r) (nodeBeforeHandlers r)
             (<[edgeType := handler]> (edgeHandlers r)).

Definition GetNodeHandler (r : ProcessRegistry) (nodeType : NodeType) :=
  nodeHandlers r !! nodeType.
Definition GetNodeAfterHandler (r : ProcessRegistry) (nodeType : NodeType) :=
  nodeAfterHandlers r !! nodeType.
Definition GetNodeBeforeHandler (r : ProcessRegistry) (nodeType : NodeType) :=
  nodeBeforeHandlers r !! nodeType.
Definition GetEdgeHandler (r : ProcessRegistry) (edgeType : EdgeType) :=
  edgeHandlers r !! edgeType.

Record ProcessHandler := mkProcessHandler {
  process : Graph;
  registry : ProcessRegistry;
  circulate : option CirculateHandler
}.

(** What a call of the engine has done so far: the world as the handlers
    left it and the calls made, oldest first. *)
Record State := mkState {
  world : W;
  log : list Event
}.

(** Invoke caller code [h] on [x], recording the call as [ev]. *)
Definition invoke {X R} (ev : Event) (h : X → W → R * W) (x : X) (s : State)
    : R * State :=
  let '(r, w) := h x (world s) in (r, mkState w (log s ++ [ev])).

Definition ProcessEdge (ph : ProcessHandler) (edge : Edge) (s : State)
    : (bool * option error) * State :=
  match GetEdgeHandler (registry ph) (Edge_EdgeType edge) with
  | None => ((false, Some (ErrEdgeHandlerNotFound (Edge_EdgeType edge))), s)
  | Some edgeHandler => invoke (CallDecide edge) edgeHandler edge s
  end.

(** The body of [if ok { ... }] in [ProcessNode], up to its [break]:
    [None] is the fall-through to [return nil]. *)
Definition acceptEdge (ph : ProcessHandler) (node : Node) (edge : Edge)
    (s : State) : option error * State :=
  let '(err, s) :=
    match GetNodeAfterHandler (registry ph) (Node_NodeType node) with
    | Some nodeAfterHandler => invoke (CallAfter node) nodeAfterHandler node s
    | None => (None, s)
    end in
  match err with
  | Some e => (Some e, s)
  | None =>
    let '((ok, err), s) :=
      match circulate ph with
      | Some c => invoke (CallCirculate edge) c edge s
      | None => ((true, None), s)
      end in
    match err with
    | Some e => (Some e, s)
    | None =>
      match GetNextNodeByEdge (process ph) edge with
      | inr e => (Some e, s)
      | inl nextNode =>
        match GetNodeBeforeHandler (registry ph) (Node_NodeType nextNode) with
        | Some nodeBeforeHandler =>
            invoke (CallBefore nextNode) nodeBeforeHandler nextNode s
        | None => (None, s)
        end
      end
    end
  end.

(** The loop of [ProcessNode] over the outgoing edges. *)
Fixpoint processEdges (ph : ProcessHandler) (node : Node) (es : list Edge)
    (s : State) : option error * State :=
  match es with
  | [] => (None, s)
  | edge :: es' =>
    let '((ok, err), s) := ProcessEdge ph edge s in
    match err with
    | Some e => (Some e, s)
    | None =>
      if ok then acceptEdge ph node edge s
      else processEdges ph node es' s
    end
  end.

(** [iter] is the order in which the call to [GetOutgoingEdges] inside this
    step ranges over the edge map. *)
Definition ProcessNode (ph : ProcessHandler) (iter : list string)
    (nodeID : string) (s : State) : option error * State :=
  match GetNodeByID (process ph) nodeID with
  | None => (Some (ErrNodeNotFound nodeID), s)
  | Some node =>
    match GetNodeHandler (registry ph) (Node_NodeType node) with
    | None => (Some (ErrNodeHandlerNotFound (Node_NodeType node)), s)
    | Some nodeHandler =>
      let '(err, s) := invoke (CallOn node) nodeHandler node s in
      match err with
      | Some e => (Some e, s)
      | None => processEdges ph node (GetOutgoingEdges (process ph) iter nodeID) s
      end
    end
  end.

(** Every edge of [es], tried in turn from [s], has a decision-handler that
    declines without error, leaving [s']. *)
Inductive Declined (ph : ProcessHandler) : list Edge → State → State → Prop :=
  | Declined_nil s : Declined ph [] s s
  | Declined_cons edge es s s1 s' :
      ProcessEdge ph edge s = ((false, None), s1) →
      Declined ph es s1 s' →
      Declined ph (edge :: es) s s'.

(** The step on [nodeID] from [s] found [node], found its on-handler and
    the handler returned nil, leaving [s0]. *)
Definition Started (ph : ProcessHandler) (nodeID : string) (s : State)
    (node : Node) (s0 : State) : Prop :=
  GetNodeByID (process ph) nodeID = Some node
  ∧ ∃ nodeHandler,
      GetNodeHandler (registry ph) (Node_NodeType node) = Some nodeHandler
      ∧ invoke (CallOn node) nodeHandler node s = (None, s0).

(** The step has come to evaluate [edge]: the outgoing edges are
    [pre ++ edge :: post], and every edge of [pre] has declined, leaving
    [s1]. *)
Definition Reaches (ph : ProcessHandler) (iter : list string)
    (nodeID : string) (s : State) (node : Node)
    (pre : list Edge) (edge : Edge) (post : list Edge) (s1 : State) : Prop :=
  ∃ s0, Started ph nodeID s node s0
        ∧ GetOutgoingEdges (process ph) iter nodeID = pre ++ edge :: post
        ∧ Declined ph pre s0 s1.

(** A state-commit callback that behaves like [c] except that the boolean
    it returns is [b]. *)
Definition withVerdict (b : bool) (c : CirculateHandler) : CirculateHandler :=
  λ edge w, let '((_, err), w') := c edge w in ((b, err), w').

(** After an acceptance in state [s], the after-handler of the source node
    is out of the way, leaving [s']: none is registered, or the one
    registered was called and returned nil. *)
Inductive AfterPassed (ph : ProcessHandler) (node : Node) (s : State)
    : State → Prop :=
  | AfterPassed_absent :
      GetNodeAfterHandler (registry ph) (Node_NodeType node) = None →
      AfterPassed ph node s s
  | AfterPassed_ran ha w :
      GetNodeAfterHandler (registry ph) (Node_NodeType node) = Some ha →
      ha node (world s) = (None, w) →
      AfterPassed ph node s (mkState w (log s ++ [CallAfter node])).

(** Likewise for the state-commit callback: none is installed, or the one
    installed was called and returned a nil error. *)
Inductive CommitPassed (ph : ProcessHandler) (edge : Edge) (s : State)
    : State → Prop :=
  | CommitPassed_absent :
      circulate ph = None →
      CommitPassed ph edge s s
  | CommitPassed_ran c b w :
      circulate ph = Some c →
      c edge (world s) = ((b, None), w) →
      CommitPassed ph edge s (mkState w (log s ++ [CallCirculate edge])).


End Engine.

Arguments ProcessRegistry : clear implicits.
Arguments ProcessHandler : clear implicits.
Arguments State : clear implicits.

(** The edges whose decision-handler a log shows invoked, oldest first. *)
Definition decided (tr : list Event) : list Edge :=
  omap (λ ev, match ev with CallDecide e => Some e | _ => None end) tr.

(** ** A small definition used for the concrete checks

    Node A has two outgoing edges, declared with the priority-2 edge first. *)

Definition emptyExtras : JSONB := mkJSONB [] Null.

Definition nA : Node := mkNode "A" "A" "request" emptyExtras.
Definition nB : Node := mkNode "B" "B" "approval" emptyExtras.
Definition nC : Node := mkNode "C" "C" "complete" emptyExtras.

Definition eHi : Edge := mkEdge "e_hi" "B" "A" 2 "route" emptyExtras.
Definition eLo : Edge := mkEdge "e_lo" "C" "A" 1 "route" emptyExtras.
(** An edge whose destination is not a node of the definition. *)
Definition eDangling : Edge := mkEdge "e_out" "Z" "B" 1 "route" emptyExtras.

Definition demo : Process := mkProcess [nA; nB; nC] [eHi; eLo].
Definition demoGraph : Graph := (NewProcess demo).1.

(** Handlers for the checks.  The world counts the calls of the
    state-commit callback. *)
Definition onOk : @NodeHandlerFunc nat := λ _ w, (None, w).
Definition onFail : @NodeHandlerFunc nat := λ _ w, (Some (ErrHandler "on"), w).
Definition hookFail (msg : string) : @NodeHandlerFunc nat :=
  λ _ w, (Some (ErrHandler msg), w).
(** Accepts the edges of priority 1, declines the others. *)
Definition acceptLow : @EdgeHandlerFunc nat :=
  λ edge w, ((Edge_Priority edge <? 2, None), w).
Definition declineAll : @EdgeHandlerFunc nat := λ _ w, ((false, None), w).
(** Declines the edges of priority above 1, fails on the others. *)
Definition failLow : @EdgeHandlerFunc nat :=
  λ edge w, ((false, if Edge_Priority edge <? 2
                     then Some (ErrHandler "decide") else None), w).
(** Commits, and answers false with a nil error. *)
Definition commitFalse : @CirculateHandler nat := λ _ w, ((false, None), S w).
Definition commitFail : @CirculateHandler nat :=
  λ _ w, ((true, Some (ErrHandler "commit")), S w).

Definition nodeHooks (after before : @NodeHandlerFunc nat)
    (r : ProcessRegistry nat) : ProcessRegistry nat :=
  RegisterNodeBeforeHandler
    (RegisterNodeBeforeHandler
      (RegisterNodeAfterHandler r "request" after) "approval" before)
    "complete" before.

Definition nodeRegistry (on : @NodeHandlerFunc nat) : ProcessRegistry nat :=
  RegisterNodeHandler
    (RegisterNodeHandler
      (RegisterNodeHandler NewProcessRegistry "request" on) "approval" on)
    "complete" on.

Definition demoRegistry (on : @NodeHandlerFunc nat) (decide : @EdgeHandlerFunc nat)
    : ProcessRegistry nat :=
  RegisterEdgeHandler (nodeRegistry on) "route" decide.

Definition demoHandler (r : ProcessRegistry nat)
    (c : option (@CirculateHandler nat)) : ProcessHandler nat :=
  mkProcessHandler demoGraph r c.

Definition declaredOrder : list string := ["e_hi"; "e_lo"].
Definition swappedOrder : list string := ["e_lo"; "e_hi"].
Definition start : State nat := mkState 0%nat [].

(** The engines of the checks: every hook and the callback in place, with
    the decision-handler, the after-handler, the callback and the
    before-handler of the scenario. *)
Definition engine (decide : @EdgeHandlerFunc nat) (after : @NodeHandlerFunc nat)
    (c : @CirculateHandler nat) (before : @NodeHandlerFunc nat)
    : ProcessHandler nat :=
  demoHandler (nodeHooks after before (demoRegistry onOk decide)) (Some c).

Definition phAccept := engine acceptLow onOk commitFalse onOk.
Definition phDecline := engine declineAll onOk commitFalse onOk.
Definition phDecideFail := engine failLow onOk commitFalse onOk.
Definition phAfterFail := engine acceptLow (hookFail "after") commitFalse onOk.
Definition phCommitFail := engine acceptLow onOk commitFail onOk.
Definition phBeforeFail := engine acceptLow onOk commitFalse (hookFail "before").
Definition phOnFail : ProcessHandler nat :=
  demoHandler (demoRegistry onFail acceptLow) (Some commitFalse).
Definition phNoDecision : ProcessHandler nat :=
  demoHandler (nodeRegistry onOk) (Some commitFalse).
Definition phEmpty : ProcessHandler nat := demoHandler NewProcessRegistry None.

(** The states of a step on A from [start]: after the on-handler, and
    after the decision-handlers of the edges [es] as well. *)
Definition afterOn : State nat := mkState 0%nat [CallOn nA].
Definition afterDecisions (es : list Edge) : State nat :=
  mkState 0%nat (CallOn nA :: (CallDecide <$> es)).

(** ** circulate_test.go: the leave-request workflow of the tests *)

Definition nodeTypeLeaveRequest : NodeType := "leave_request".
Definition nodeTypeLeaveApproval : NodeType := "leave_approval".
Definition nodeTypeLeaveComplete : NodeType := "leave_complete".

Definition edgeTypeApproval : EdgeType := "approval".
Definition edgeTypeComplete : EdgeType := "complete".

Definition handleLeaveRequest {W} : @NodeHandlerFunc W := λ _ w, (None, w).
Definition handleLeaveApproval {W} : @NodeHandlerFunc W := λ _ w, (None, w).
Definition handleLeaveComplete {W} : @NodeHandlerFunc W := λ _ w, (None, w).
Definition handleApprovalEdge {W} : @EdgeHandlerFunc W := λ _ w, ((true, None), w).
Definition handleCompleteEdge {W} : @EdgeHandlerFunc W := λ _ w, ((true, None), w).

Definition leaveRequestNode : Node :=
  mkNode "请假申请" "leave_request" nodeTypeLeaveRequest emptyExtras.
Definition leaveApprovalNode : Node :=
  mkNode "请假审批" "leave_approval" nodeTypeLeaveApproval emptyExtras.
Definition leaveCompleteNode : Node :=
  mkNode "请假完成" "leave_complete" nodeTypeLeaveComplete emptyExtras.

Definition approvalEdge : Edge :=
  mkEdge "approval_edge" "leave_approval" "leave_request" 1
         edgeTypeApproval emptyExtras.
Definition completeEdge : Edge :=
  mkEdge "complete_edge" "leave_complete" "leave_approval" 1
         edgeTypeComplete emptyExtras.

Definition createLeaveProcess : Process :=
  mkProcess [leaveRequestNode; leaveApprovalNode; leaveCompleteNode]
            [approvalEdge; completeEdge].

(** The registry that [TestProcessHandler] and
    [TestIntegrationLeaveProcess] fill in. *)
Definition leaveRegistry {W} : ProcessRegistry W :=
  RegisterEdgeHandler
    (RegisterEdgeHandler
      (RegisterNodeHandler
        (RegisterNodeHandler
          (RegisterNodeHandler (mkRegistry ∅ ∅ ∅ ∅)
             nodeTypeLeaveRequest handleLeaveRequest)
          nodeTypeLeaveApproval handleLeaveApproval)
        nodeTypeLeaveComplete handleLeaveComplete)
      edgeTypeApproval handleApprovalEdge)
    edgeTypeComplete handleCompleteEdge.

(** [handler := &ProcessHandler{process: NewProcess(leaveProcess),
    registry: registry}]: no state-commit callback. *)
Definition leaveHandler {W} : ProcessHandler W :=
  mkProcessHandler (NewProcess createLeaveProcess).1 leaveRegistry None.

(** [t.Errorf] marks the test as failed and lets it go on: the tests below
    count the marks.  Indexing past the end of a slice, or calling a method
    on the nil node that comes with a lookup error, panics: [None]. *)
Definition errorf (failed : bool) : nat := if failed then 1%nat else 0%nat.

(** [TestIntegrationLeaveProcess].  [iter1], [iter2] and [iter3] are the
    orders in which the three [ProcessNode] calls range over the edge
    map. *)
Definition TestIntegrationLeaveProcess {W} (iter1 iter2 iter3 : list string)
    (s : State W) : option (nat * State W) :=
  let handler : ProcessHandler W := leaveHandler in
  let leaveProcess := (NewProcess createLeaveProcess).2 in
  let '(err, s) := ProcessNode handler iter1 "leave_request" s in
  let marks := errorf (bool_decide (err ≠ None)) in
  edge ← Edges leaveProcess !! 0%nat;
  let '((ok, err), s) := ProcessEdge handler edge s in
  let marks := (marks + errorf (bool_decide (err ≠ None)) + errorf (negb ok))%nat in
  match GetNextNodeByEdge (process handler) edge with
  | inr _ => None
  | inl nextNode =>
    let '(err, s) := ProcessNode handler iter2 (Node_ID nextNode) s in
    let marks := (marks + errorf (bool_decide (err ≠ None)))%nat in
    edge ← Edges leaveProcess !! 1%nat;
    let '((ok, err), s) := ProcessEdge handler edge s in
    let marks :=
      (marks + errorf (bool_decide (err ≠ None)) + errorf (negb ok))%nat in
    match GetNextNodeByEdge (process handler) edge with
    | inr _ => None
    | inl nextNode =>
      let '(err, s) := ProcessNode handler iter3 (Node_ID nextNode) s in
      Some ((marks + errorf (bool_decide (err ≠ None)))%nat, s)
    end
  end.

(** More engines for the checks: an edge of A that leads nowhere, and an
    engine with neither hooks nor callback. *)
Definition eLost : Edge := mkEdge "e_lost" "Z" "A" 1 "route" emptyExtras.
Definition lostDemo : Process := mkProcess [nA; nB; nC] [eLost].
Definition phLost : ProcessHandler nat :=
  mkProcessHandler (NewProcess lostDemo).1
    (nodeHooks onOk onOk (demoRegistry onOk acceptLow)) (Some commitFalse).
Definition phPlain : ProcessHandler nat :=
  demoHandler (demoRegistry onOk acceptLow) None.
(** No hook at all and a failing callback; a failing after-handler in
    front of an edge that leads nowhere. *)
Definition phBareCommitFail : ProcessHandler nat :=
  demoHandler (demoRegistry onOk acceptLow) (Some commitFail).
Definition phLostAfterFail : ProcessHandler nat :=
  mkProcessHandler (NewProcess lostDemo).1
    (nodeHooks (hookFail "after") onOk (demoRegistry onOk acceptLow))
    (Some commitFalse).

(** ** Counting the calls of a log *)

Definition isOn (ev : Event) : bool :=
  match ev with CallOn _ => true | _ => false end.
Definition isAfter (ev : Event) : bool :=
  match ev with CallAfter _ => true | _ => false end.
Definition isCirculate (ev : Event) : bool :=
  match ev with CallCirculate _ => true | _ => false end.
Definition isBefore (ev : Event) : bool :=
  match ev with CallBefore _ => true | _ => false end.

Definition calls (kind : Event → bool) (tr : list Event) : nat :=
  length (filter (λ ev, kind ev = true) tr).

(** ** Properties of the graph *)

Definition byPriority (a b : Edge) : Prop := Edge_Priority a ≤ Edge_Priority b.

Lemma GetOutgoingEdges_filter p iter nodeID :
  GetOutgoingEdges p iter nodeID
  = filter (λ e, Edge_SrcID e = nodeID) (omap (λ k, edges p !! k) iter).
Proof.
  unfold GetOutgoingEdges.
  enough (∀ acc,
    foldl (λ acc k,
             match edges p !! k with
             | Some edge =>
                 if decide (Edge_SrcID edge = nodeID) then acc ++ [edge] else acc
             | None => acc
             end) acc iter
    = acc ++ filter (λ e, Edge_SrcID e = nodeID) (omap (λ k, edges p !! k) iter))
    as H by apply (H []).
  induction iter as [|k iter IH]; intros acc; simpl.
  - by rewrite app_nil_r.
  - rewrite IH. destruct (edges p !! k) as [e|]; [|done].
    rewrite filter_cons. case_decide; [|done]. by rewrite <- app_assoc.
Qed.

(** Whatever order the loop follows, the edges returned are those stored in
    the graph whose source is [nodeID]. *)
Lemma GetOutgoingEdges_elem_of p iter nodeID e :
  MapRange (edges p) iter →
  e ∈ GetOutgoingEdges p iter nodeID
  ↔ Edge_SrcID e = nodeID ∧ ∃ k, edges p !! k = Some e.
Proof.
  intros Hr. rewrite GetOutgoingEdges_filter, list_elem_of_filter.
  rewrite list_elem_of_omap. split.
  - intros [Hs (k & _ & Hk)]. eauto.
  - intros [Hs [k Hk]]. split; [done|]. exists k. split; [|done].
    rewrite Hr. apply list_elem_of_fmap. exists (k, e). split; [done|].
    by apply elem_of_map_to_list.
Qed.

Lemma GetOutgoingEdges_none p iter nodeID :
  MapRange (edges p) iter →
  (∀ k e, edges p !! k = Some e → Edge_SrcID e ≠ nodeID) →
  GetOutgoingEdges p iter nodeID = [].
Proof.
  intros Hr Hno. apply elem_of_nil_inv. intros e.
  rewrite GetOutgoingEdges_elem_of by done. intros [Hs [k Hk]]. by eapply Hno.
Qed.

Lemma GetNextNodes_omap p iter nodeID :
  (GetNextNodes p iter nodeID).1
  = omap (λ e, GetNodeByID p (Edge_DstID e)) (GetOutgoingEdges p iter nodeID).
Proof.
  unfold GetNextNodes. simpl. generalize (GetOutgoingEdges p iter nodeID) as es.
  enough (∀ es acc,
    foldl (λ nextNodes edge,
             match GetNodeByID p (Edge_DstID edge) with
             | Some nextNode => nextNodes ++ [nextNode]
             | None => nextNodes
             end) acc es
    = acc ++ omap (λ e, GetNodeByID p (Edge_DstID e)) es) as H
    by (intros es; apply (H es [])).
  induction es as [|e es IH]; intros acc; simpl.
  - by rewrite app_nil_r.
  - rewrite IH. destruct (GetNodeByID p (Edge_DstID e)); simpl; [|done].
    by rewrite <- app_assoc.
Qed.

(** [sort.Slice]: the outcome is a rearrangement, in ascending order. *)
Lemma sift_Permutation {A} (lt : A → A → bool) x done :
  sift lt x done ≡ₚ x :: done.
Proof.
  induction done as [|y done IH]; simpl; [done|].
  destruct (lt x y); [|done]. rewrite IH. apply perm_swap.
Qed.

Lemma sort_Slice_Permutation {A} (lt : A → A → bool) l : sort_Slice lt l ≡ₚ l.
Proof.
  unfold sort_Slice. rewrite reverse_Permutation.
  enough (∀ acc, foldl (λ done x, sift lt x done) acc l ≡ₚ acc ++ l) as H
    by apply (H []).
  induction l as [|x l IH]; intros acc; simpl.
  - by rewrite app_nil_r.
  - rewrite IH, sift_Permutation. simpl. apply Permutation_middle.
Qed.

Lemma sift_less_Sorted x done :
  Sorted (flip byPriority) done → Sorted (flip byPriority) (sift less x done).
Proof.
  unfold flip, byPriority, less.
  induction 1 as [|y done Hs IH Hhd]; simpl.
  - repeat constructor.
  - destruct (Z.ltb_spec (Edge_Priority x) (Edge_Priority y)) as [Hlt|Hge].
    + constructor; [done|].
      destruct Hhd as [|z done' Hz]; simpl.
      * constructor. lia.
      * destruct (Z.ltb_spec (Edge_Priority x) (Edge_Priority z));
          constructor; [done|lia].
    + repeat constructor; done.
Qed.

Lemma sort_Slice_less_Sorted l : Sorted byPriority (sort_Slice less l).
Proof.
  unfold sort_Slice.
  apply (Sorted_reverse (flip byPriority)).
  enough (∀ acc, Sorted (flip byPriority) acc →
            Sorted (flip byPriority) (foldl (λ done x, sift less x done) acc l))
    as H by (apply H; constructor).
  induction l as [|x l IH]; intros acc Hacc; simpl; [done|].
  by apply IH, sift_less_Sorted.
Qed.

Lemma demoGraph_range_declared :
  MapRange (edges demoGraph) declaredOrder.
Proof.
  unfold MapRange. vm_compute (map_to_list _).
  first [reflexivity | apply perm_swap].
Qed.

Lemma demoGraph_range_swapped :
  MapRange (edges demoGraph) swappedOrder.
Proof.
  unfold MapRange. vm_compute (map_to_list _).
  first [reflexivity | apply perm_swap].
Qed.

(** C1 (the code departs from the claim).  On the definition that declares
    the priority-2 edge of node A before its priority-1 edge, a loop that
    meets the entries of the edge map in the order [declaredOrder] (one of the
    orders the map allows) makes [GetOutgoingEdges] return the priority-2
    edge first: the result is not in ascending priority order.  A loop
    meeting them in the other order returns the other sequence, so the
    result is not determined by the graph either. *)
Theorem C1_outgoing_edges_follow_map_order :
  MapRange (edges demoGraph) declaredOrder
  ∧ GetOutgoingEdges demoGraph declaredOrder "A" = [eHi; eLo]
  ∧ ¬ Sorted byPriority (GetOutgoingEdges demoGraph declaredOrder "A")
  ∧ MapRange (edges demoGraph) swappedOrder
  ∧ GetOutgoingEdges demoGraph swappedOrder "A" = [eLo; eHi].
Proof.
  split; [apply demoGraph_range_declared|].
  split; [reflexivity|].
  split.
  - intros Hs. change (Sorted byPriority [eHi; eLo]) in Hs.
    inversion Hs as [|? ? _ Hhd]; subst.
    inversion Hhd as [|? ? Hle]; subst.
    unfold byPriority in Hle. simpl in Hle. lia.
  - split; [apply demoGraph_range_swapped | reflexivity].
Qed.

(** C7.  [GetNextNodeByEdge] returns the node stored under [edge.DstID] when
    there is one, and fails exactly when there is none; the failure is the
    "destination of edge <ID> not found" error. *)
Theorem C7_GetNextNodeByEdge_resolves (p : Graph) (edge : Edge) :
  (∀ n, nodes p !! Edge_DstID edge = Some n → GetNextNodeByEdge p edge = inl n)
  ∧ (nodes p !! Edge_DstID edge = None
     ↔ GetNextNodeByEdge p edge = inr (ErrDestinationUnresolved (Edge_ID edge)))
  ∧ (∀ err, GetNextNodeByEdge p edge = inr err → nodes p !! Edge_DstID edge = None).
Proof.
  unfold GetNextNodeByEdge, GetNodeByID.
  destruct (nodes p !! Edge_DstID edge) as [n|]; repeat split; try done.
  intros ? [= ->]; done.
Qed.

Lemma C7_GetNextNodeByEdge_resolves_witness :
  GetNextNodeByEdge demoGraph eHi = inl nB
  ∧ GetNextNodeByEdge demoGraph eDangling = inr (ErrDestinationUnresolved "e_out").
Proof.
  split.
  - apply (C7_GetNextNodeByEdge_resolves demoGraph eHi). reflexivity.
  - apply (C7_GetNextNodeByEdge_resolves demoGraph eDangling). reflexivity.
Defined.

(** C8.  [GetNextNodes] never returns an error, and its nodes are the
    destination nodes of the edges of [GetOutgoingEdges], edge by edge in
    the same order (an edge whose destination is not in the graph has no
    destination node and contributes none).  When every destination is in
    the graph the two sequences line up position by position. *)
Theorem C8_GetNextNodes_destinations (p : Graph) (iter : list string)
    (nodeID : string) :
  (GetNextNodes p iter nodeID).2 = None
  ∧ (GetNextNodes p iter nodeID).1
    = omap (λ e, GetNodeByID p (Edge_DstID e)) (GetOutgoingEdges p iter nodeID)
  ∧ ((∀ e, e ∈ GetOutgoingEdges p iter nodeID →
           is_Some (nodes p !! Edge_DstID e)) →
     Forall2 (λ e n, nodes p !! Edge_DstID e = Some n)
             (GetOutgoingEdges p iter nodeID) (GetNextNodes p iter nodeID).1).
Proof.
  split; [done|]. split; [apply GetNextNodes_omap|].
  rewrite GetNextNodes_omap. unfold GetNodeByID.
  induction (GetOutgoingEdges p iter nodeID) as [|e es IH]; intros Hall; simpl.
  - constructor.
  - destruct (Hall e) as [n Hn]; [left|]. rewrite Hn. simpl.
    constructor; [done|]. apply IH. intros e' He'. apply Hall. by right.
Qed.

Lemma C8_GetNextNodes_destinations_witness :
  (GetNextNodes demoGraph declaredOrder "A").2 = None
  ∧ (GetNextNodes demoGraph declaredOrder "A").1 = [nB; nC]
  ∧ Forall2 (λ e n, nodes demoGraph !! Edge_DstID e = Some n)
            (GetOutgoingEdges demoGraph declaredOrder "A")
            (GetNextNodes demoGraph declaredOrder "A").1.
Proof.
  destruct (C8_GetNextNodes_destinations demoGraph
              declaredOrder "A") as (H1 & H2 & H3).
  split; [exact H1|]. split; [rewrite H2; reflexivity|].
  apply H3. intros e He.
  change (e ∈ [eHi; eLo]) in He.
  apply elem_of_cons in He as [->|He]; [by eexists|].
  apply elem_of_cons in He as [->|He]; [by eexists|].
  by apply elem_of_nil in He.
Defined.

(** C9, as the claim states it, fails: after [NewProcess] the caller's
    [Edges] of [demo] are in another order than before. *)
Lemma C9_NewProcess_reorders_Edges :
  Edges demo = [eHi; eLo]
  ∧ Edges (NewProcess demo).2 = [eLo; eHi]
  ∧ (NewProcess demo).2 ≠ demo.
Proof.
  split; [reflexivity|]. split; [reflexivity|].
  intros H. apply (f_equal Edges) in H. vm_compute in H. discriminate H.
Qed.

(** C9 (amended).  [NewProcess] leaves [Nodes] as it was, and leaves in
    [Edges] the same edges as before, rearranged into ascending [Priority]
    order. *)
Theorem C9_NewProcess_sorts_Edges_in_place (process : Process) :
  Nodes (NewProcess process).2 = Nodes process
  ∧ Edges (NewProcess process).2 ≡ₚ Edges process
  ∧ Sorted byPriority (Edges (NewProcess process).2).
Proof.
  split; [done|]. simpl.
  split; [apply sort_Slice_Permutation | apply sort_Slice_less_Sorted].
Qed.

(** ** Properties of the step *)

Section EngineFacts.

Context {W : Type}.
Implicit Types (ph : ProcessHandler W) (s : State W) (es pre post : list Edge).

Lemma decided_app tr1 tr2 : decided (tr1 ++ tr2) = decided tr1 ++ decided tr2.
Proof. apply omap_app. Qed.

Lemma decided_CallDecide es : decided (CallDecide <$> es) = es.
Proof. induction es as [|e es IH]; simpl; [done|]. by f_equal. Qed.

Lemma invoke_log {X R} ev (h : X → W → R * W) x s r s' :
  invoke ev h x s = (r, s') → h x (world s) = (r, world s') ∧ log s' = log s ++ [ev].
Proof.
  unfold invoke. destruct (h x (world s)) as [r0 w]. by intros [= <- <-].
Qed.

(** [ProcessEdge] calls the decision-handler once when there is one, and
    calls nothing when there is none. *)
Lemma ProcessEdge_log ph edge s r s' :
  ProcessEdge ph edge s = (r, s') →
  (is_Some (GetEdgeHandler (registry ph) (Edge_EdgeType edge))
   ∧ log s' = log s ++ [CallDecide edge])
  ∨ (GetEdgeHandler (registry ph) (Edge_EdgeType edge) = None
     ∧ r = (false, Some (ErrEdgeHandlerNotFound (Edge_EdgeType edge)))
     ∧ s' = s).
Proof.
  unfold ProcessEdge.
  destruct (GetEdgeHandler (registry ph) (Edge_EdgeType edge)) as [h|].
  - intros [_ Hl]%invoke_log. left. eauto.
  - intros [= <- <-]. by right.
Qed.

Lemma ProcessEdge_ok_log ph edge s ok s' :
  ProcessEdge ph edge s = ((ok, None), s') → log s' = log s ++ [CallDecide edge].
Proof. intros [[_ ?]|(_ & [=] & _)]%ProcessEdge_log. done. Qed.

Lemma Declined_log ph pre s s' :
  Declined ph pre s s' → log s' = log s ++ (CallDecide <$> pre).
Proof.
  induction 1 as [|edge es s s1 s' He _ IH]; simpl.
  - by rewrite app_nil_r.
  - rewrite IH, (ProcessEdge_ok_log _ _ _ _ _ He). by rewrite <- app_assoc.
Qed.

(** Declining edges are passed over: the loop goes on with the rest. *)
Lemma processEdges_Declined ph node pre rest s s' :
  Declined ph pre s s' →
  processEdges ph node (pre ++ rest) s = processEdges ph node rest s'.
Proof.
  induction 1 as [|edge es s s1 s' He _ IH]; simpl; [done|].
  by rewrite He.
Qed.

(** Once an edge is accepted no decision-handler is called any more. *)
Lemma acceptEdge_log ph node edge s :
  ∃ tr, log (acceptEdge ph node edge s).2 = log s ++ tr ∧ decided tr = [].
Proof.
  unfold acceptEdge.
  destruct (GetNodeAfterHandler (registry ph) (Node_NodeType node)) as [ha|].
  2: destruct (circulate ph) as [c|].
  3: destruct (GetNextNodeByEdge (process ph) edge) as [n|e].
  3: destruct (GetNodeBeforeHandler (registry ph) (Node_NodeType n)) as [hb|].
  all: unfold invoke; simpl.
  all: repeat match goal with
       | |- context [let '(_, _) := ?h ?x ?w in _] =>
           destruct (h x w) as [[]?] eqn:?; simpl
       | |- context [match ?o with Some _ => _ | None => _ end] =>
           destruct o eqn:?; simpl
       | |- context [match ?o with inl _ => _ | inr _ => _ end] =>
           destruct o eqn:?; simpl
       end.
  all: try (eexists; split; [rewrite <- ?app_assoc; reflexivity | reflexivity]).
  all: try (exists []; split; [by rewrite app_nil_r | reflexivity]).
Qed.

Lemma ProcessNode_Started ph iter nodeID s node s0 :
  Started ph nodeID s node s0 →
  ProcessNode ph iter nodeID s
  = processEdges ph node (GetOutgoingEdges (process ph) iter nodeID) s0
  ∧ log s0 = log s ++ [CallOn node].
Proof.
  intros (Hn & h & Hh & Hon). unfold ProcessNode. rewrite Hn, Hh, Hon.
  split; [done|]. by apply invoke_log in Hon as [_ ?].
Qed.

Lemma ProcessNode_Reaches ph iter nodeID s node pre edge post s1 :
  Reaches ph iter nodeID s node pre edge post s1 →
  ProcessNode ph iter nodeID s = processEdges ph node (edge :: post) s1
  ∧ log s1 = log s ++ CallOn node :: (CallDecide <$> pre).
Proof.
  intros (s0 & Hst & Hes & Hd).
  destruct (ProcessNode_Started _ iter _ _ _ _ Hst) as [-> Hl0].
  rewrite Hes. split; [by apply processEdges_Declined|].
  rewrite (Declined_log _ _ _ _ Hd), Hl0. by rewrite <- app_assoc.
Qed.

End EngineFacts.

Section Step.

Context {W : Type}.
Implicit Types (ph : ProcessHandler W) (s : State W) (es pre post : list Edge).

(** The three calls that follow an acceptance, when the source node has an
    after-handler [ha], a state-commit callback [c] is installed, and the
    destination [nextNode] is in the graph with a before-handler [hb]. *)
Lemma acceptEdge_present ph node edge s ha c nextNode hb :
  GetNodeAfterHandler (registry ph) (Node_NodeType node) = Some ha →
  circulate ph = Some c →
  GetNextNodeByEdge (process ph) edge = inl nextNode →
  GetNodeBeforeHandler (registry ph) (Node_NodeType nextNode) = Some hb →
  (∀ e w, ha node (world s) = (Some e, w) →
     acceptEdge ph node edge s = (Some e, mkState w (log s ++ [CallAfter node])))
  ∧ (∀ w3 b e w4,
       ha node (world s) = (None, w3) → c edge w3 = ((b, Some e), w4) →
       acceptEdge ph node edge s
       = (Some e, mkState w4 (log s ++ [CallAfter node; CallCirculate edge])))
  ∧ (∀ w3 b w4 r w5,
       ha node (world s) = (None, w3) → c edge w3 = ((b, None), w4) →
       hb nextNode w4 = (r, w5) →
       acceptEdge ph node edge s
       = (r, mkState w5 (log s ++ [CallAfter node; CallCirculate edge;
                                   CallBefore nextNode]))).
Proof.
  intros Ha Hc Hn Hb. unfold acceptEdge, invoke. rewrite Ha, Hc, Hn.
  repeat split.
  - intros e w ->. done.
  - intros w3 b e w4 -> . simpl. intros ->. simpl. by rewrite <- app_assoc.
  - intros w3 b w4 r w5 ->. simpl. intros ->. simpl. rewrite Hb.
    intros ->. by rewrite <- !app_assoc.
Qed.

Lemma acceptEdge_withVerdict g reg c b node edge s :
  acceptEdge (mkProcessHandler g reg (Some (withVerdict b c))) node edge s
  = acceptEdge (mkProcessHandler g reg (Some c)) node edge s.
Proof.
  unfold acceptEdge, invoke, withVerdict. simpl.
  destruct (match GetNodeAfterHandler reg (Node_NodeType node) with
            | Some h => _ | None => _ end) as [[e|] s1]; [done|].
  destruct (c edge (world s1)) as [[ok [e|]] w]; done.
Qed.

(** C2.  Suppose the step has come to evaluate [edge]: the outgoing edges,
    in the order [GetOutgoingEdges] produced them, are [pre ++ edge :: post]
    and every edge of [pre] has declined.  Then the decision-handlers called
    so far are those of [pre], in that order, and
    - if evaluating [edge] yields an error, the step returns it at once;
    - if the decision-handler of [edge] declines, the step goes on with
      [post], starting with its first edge;
    - if it accepts, the step finishes with the transition along [edge],
      and the decision-handlers called in the whole step are exactly those
      of [pre] and of [edge]: none of [post] is ever called. *)
Theorem C2_edges_evaluated_in_order_until_accept ph iter nodeID s node
    pre edge post s1 :
  Reaches ph iter nodeID s node pre edge post s1 →
  decided (log s1) = decided (log s) ++ pre
  ∧ (∀ ok err s2,
       ProcessEdge ph edge s1 = ((ok, Some err), s2) →
       ProcessNode ph iter nodeID s = (Some err, s2)
       ∧ decided (log s2)
         = decided (log s) ++ pre
           ++ match GetEdgeHandler (registry ph) (Edge_EdgeType edge) with
              | Some _ => [edge]
              | None => []
              end)
  ∧ (∀ s2,
       ProcessEdge ph edge s1 = ((false, None), s2) →
       ProcessNode ph iter nodeID s = processEdges ph node post s2
       ∧ decided (log s2) = decided (log s) ++ pre ++ [edge])
  ∧ (∀ s2,
       ProcessEdge ph edge s1 = ((true, None), s2) →
       ProcessNode ph iter nodeID s = acceptEdge ph node edge s2
       ∧ decided (log (ProcessNode ph iter nodeID s).2)
         = decided (log s) ++ pre ++ [edge]).
Proof.
  intros Hr. destruct (ProcessNode_Reaches _ _ _ _ _ _ _ _ _ Hr) as [Hpn Hl1].
  assert (decided (log s1) = decided (log s) ++ pre) as Hd1.
  { rewrite Hl1, decided_app. simpl. by rewrite decided_CallDecide. }
  split; [done|]. rewrite Hpn. simpl.
  split; [|split]; [intros ok err s2 He | intros s2 He ..]; rewrite He; simpl.
  - split; [done|].
    apply ProcessEdge_log in He as [[[h Hh] Hl]|(Hh & _ & ->)]; rewrite Hh.
    + rewrite Hl, decided_app, Hd1. simpl. by rewrite <- app_assoc.
    + by rewrite app_nil_r.
  - split; [done|].
    apply ProcessEdge_ok_log in He. rewrite He, decided_app, Hd1. simpl.
    by rewrite <- app_assoc.
  - split; [done|].
    destruct (acceptEdge_log ph node edge s2) as (tr & -> & Htr).
    apply ProcessEdge_ok_log in He.
    rewrite He, !decided_app, Htr, Hd1, app_nil_r. simpl.
    by rewrite <- app_assoc.
Qed.

(** The accept body, stage by stage, whichever of the after-handler, the
    callback and the before-handler are there. *)
Lemma acceptEdge_stages ph node edge s :
  (∀ ha e w,
     GetNodeAfterHandler (registry ph) (Node_NodeType node) = Some ha →
     ha node (world s) = (Some e, w) →
     acceptEdge ph node edge s = (Some e, mkState w (log s ++ [CallAfter node])))
  ∧ (∀ sA c b e w,
       AfterPassed ph node s sA →
       circulate ph = Some c →
       c edge (world sA) = ((b, Some e), w) →
       acceptEdge ph node edge s
       = (Some e, mkState w (log sA ++ [CallCirculate edge])))
  ∧ (∀ sA sC,
       AfterPassed ph node s sA →
       CommitPassed ph edge sA sC →
       (∀ err, GetNextNodeByEdge (process ph) edge = inr err →
               acceptEdge ph node edge s = (Some err, sC))
       ∧ (∀ nextNode,
            GetNextNodeByEdge (process ph) edge = inl nextNode →
            (GetNodeBeforeHandler (registry ph) (Node_NodeType nextNode) = None →
             acceptEdge ph node edge s = (None, sC))
            ∧ (∀ hb r w,
                 GetNodeBeforeHandler (registry ph) (Node_NodeType nextNode)
                 = Some hb →
                 hb nextNode (world sC) = (r, w) →
                 acceptEdge ph node edge s
                 = (r, mkState w (log sC ++ [CallBefore nextNode]))))).
Proof.
  assert (∀ sA, AfterPassed ph node s sA →
            match GetNodeAfterHandler (registry ph) (Node_NodeType node) with
            | Some nodeAfterHandler =>
                invoke (CallAfter node) nodeAfterHandler node s
            | None => (None, s)
            end = (None, sA)) as HA.
  { intros sA [Ha | ha w Ha Hha]; rewrite Ha; [done|].
    unfold invoke. by rewrite Hha. }
  assert (∀ sA sC, CommitPassed ph edge sA sC →
            ∃ b, match circulate ph with
                 | Some c => invoke (CallCirculate edge) c edge sA
                 | None => ((true, None), sA)
                 end = ((b, None), sC)) as HC.
  { intros sA sC [Hc | c b w Hc Hcc]; rewrite Hc; [by exists true|].
    exists b. unfold invoke. by rewrite Hcc. }
  unfold acceptEdge. split; [|split].
  - intros ha e w Ha Hha. rewrite Ha. unfold invoke. by rewrite Hha.
  - intros sA c b e w HsA Hc Hcc. rewrite (HA _ HsA), Hc.
    unfold invoke. by rewrite Hcc.
  - intros sA sC HsA HsC. rewrite (HA _ HsA).
    destruct (HC _ _ HsC) as [b ->]. split.
    + by intros err ->.
    + intros nextNode ->. split.
      * by intros ->.
      * intros hb r w -> Hhb. unfold invoke. by rewrite Hhb.
Qed.

(** C3.  When the step accepts [edge], what follows is, in this order: the
    after-handler of the source node, the state-commit callback for the
    edge, the lookup of the destination, the before-handler of the
    destination, each of the three calls being made only if the callee is
    there and everything before it went through.  Whichever of the three
    are registered or installed:
    - an after-handler that fails ends the step with its error, and is the
      only call made after the acceptance;
    - once the after-handler is out of the way (absent, or called and
      returned nil), a callback that fails ends the step with its error,
      and no before-handler is called;
    - once the callback is out of the way too, the step fails if the
      destination is not in the graph, returns nil if the destination has
      no before-handler, and otherwise calls that before-handler last and
      returns what it returns.
    The log of each case lists the calls made, oldest first. *)
Theorem C3_after_commit_before_in_order ph iter nodeID s node pre edge post
    s1 s2 :
  Reaches ph iter nodeID s node pre edge post s1 →
  ProcessEdge ph edge s1 = ((true, None), s2) →
  (∀ ha e w,
     GetNodeAfterHandler (registry ph) (Node_NodeType node) = Some ha →
     ha node (world s2) = (Some e, w) →
     ProcessNode ph iter nodeID s
     = (Some e, mkState w (log s2 ++ [CallAfter node])))
  ∧ (∀ sA c b e w,
       AfterPassed ph node s2 sA →
       circulate ph = Some c →
       c edge (world sA) = ((b, Some e), w) →
       ProcessNode ph iter nodeID s
       = (Some e, mkState w (log sA ++ [CallCirculate edge])))
  ∧ (∀ sA sC,
       AfterPassed ph node s2 sA →
       CommitPassed ph edge sA sC →
       (∀ err, GetNextNodeByEdge (process ph) edge = inr err →
               ProcessNode ph iter nodeID s = (Some err, sC))
       ∧ (∀ nextNode,
            GetNextNodeByEdge (process ph) edge = inl nextNode →
            (GetNodeBeforeHandler (registry ph) (Node_NodeType nextNode) = None →
             ProcessNode ph iter nodeID s = (None, sC))
            ∧ (∀ hb r w,
                 GetNodeBeforeHandler (registry ph) (Node_NodeType nextNode)
                 = Some hb →
                 hb nextNode (world sC) = (r, w) →
                 ProcessNode ph iter nodeID s
                 = (r, mkState w (log sC ++ [CallBefore nextNode])))))
  ∧ (∀ sA sC,
       AfterPassed ph node s2 sA →
       CommitPassed ph edge sA sC →
       log sA = log s2
                ++ match GetNodeAfterHandler (registry ph) (Node_NodeType node) with
                   | Some _ => [CallAfter node]
                   | None => []
                   end
       ∧ log sC = log sA
                  ++ match circulate ph with
                     | Some _ => [CallCirculate edge]
                     | None => []
                     end).
Proof.
  intros Hr He.
  destruct (ProcessNode_Reaches _ _ _ _ _ _ _ _ _ Hr) as [-> _].
  simpl. rewrite He.
  destruct (acceptEdge_stages ph node edge s2) as (H1 & H2 & H3).
  split; [exact H1|]. split; [exact H2|]. split; [exact H3|].
  intros sA sC [Ha | ha w Ha _] [Hc | c b w' Hc _]; rewrite Ha, Hc; simpl;
    by rewrite ?app_nil_r.
Qed.

(** C4.  If the on-handler of the current node returns an error, the step
    returns that very error, the on-handler is the only call made, and no
    decision-handler is called. *)
Theorem C4_on_handler_error_aborts ph iter nodeID s node h e w :
  GetNodeByID (process ph) nodeID = Some node →
  GetNodeHandler (registry ph) (Node_NodeType node) = Some h →
  h node (world s) = (Some e, w) →
  ProcessNode ph iter nodeID s = (Some e, mkState w (log s ++ [CallOn node]))
  ∧ decided (log (ProcessNode ph iter nodeID s).2) = decided (log s).
Proof.
  intros Hn Hh He. unfold ProcessNode, invoke. rewrite Hn, Hh, He. simpl.
  split; [done|]. rewrite decided_app. simpl. by rewrite app_nil_r.
Qed.

(** C5.  A node whose type has no on-handler: the step fails with the
    "no handler for node type" error and calls nothing.  An edge whose type
    has no decision-handler, once the step comes to evaluate it: the step
    fails with the "no handler for edge type" error instead of passing on
    to the edges after it. *)
Theorem C5_missing_handler_is_fatal ph iter nodeID s node :
  GetNodeByID (process ph) nodeID = Some node →
  (GetNodeHandler (registry ph) (Node_NodeType node) = None →
   ProcessNode ph iter nodeID s
   = (Some (ErrNodeHandlerNotFound (Node_NodeType node)), s))
  ∧ (∀ pre edge post s1,
       Reaches ph iter nodeID s node pre edge post s1 →
       GetEdgeHandler (registry ph) (Edge_EdgeType edge) = None →
       ProcessNode ph iter nodeID s
       = (Some (ErrEdgeHandlerNotFound (Edge_EdgeType edge)), s1)
       ∧ decided (log s1) = decided (log s) ++ pre).
Proof.
  intros Hn. split.
  - intros Hh. unfold ProcessNode. by rewrite Hn, Hh.
  - intros pre edge post s1 Hr He.
    destruct (ProcessNode_Reaches _ _ _ _ _ _ _ _ _ Hr) as [-> Hl].
    simpl. unfold ProcessEdge. rewrite He. split; [done|].
    rewrite Hl, decided_app. simpl. by rewrite decided_CallDecide.
Qed.

(** C6.  If every outgoing edge's decision-handler declines, the step
    returns nil, and the calls it made are the on-handler followed by the
    decision-handlers: no after-handler, no state-commit callback and no
    before-handler is called. *)
Theorem C6_all_declined_no_transition ph iter nodeID s node s0 s' :
  Started ph nodeID s node s0 →
  Declined ph (GetOutgoingEdges (process ph) iter nodeID) s0 s' →
  ProcessNode ph iter nodeID s = (None, s')
  ∧ log s' = log s ++ CallOn node
               :: (CallDecide <$> GetOutgoingEdges (process ph) iter nodeID).
Proof.
  intros Hst Hd.
  destruct (ProcessNode_Started _ iter _ _ _ _ Hst) as [-> Hl0].
  split.
  - rewrite <- (app_nil_r (GetOutgoingEdges _ _ _)).
    by rewrite (processEdges_Declined _ _ _ [] _ _ Hd).
  - rewrite (Declined_log _ _ _ _ Hd), Hl0. by rewrite <- app_assoc.
Qed.

Lemma processEdges_withVerdict g reg c b node es s :
  processEdges (mkProcessHandler g reg (Some (withVerdict b c))) node es s
  = processEdges (mkProcessHandler g reg (Some c)) node es s.
Proof.
  revert s. induction es as [|edge es IH]; intros s; simpl; [done|].
  change (ProcessEdge (mkProcessHandler g reg (Some (withVerdict b c))) edge s)
    with (ProcessEdge (mkProcessHandler g reg (Some c)) edge s).
  destruct (ProcessEdge _ edge s) as [[ok [e|]] s1]; [done|].
  destruct ok; [apply acceptEdge_withVerdict | apply IH].
Qed.

(** C10.  The boolean returned by the state-commit callback has no effect:
    replacing it by any other boolean leaves the outcome of the step, the
    world and the calls made unchanged.  In particular, when the callback
    answers false with a nil error after an acceptance, the destination is
    resolved, its before-handler is called and the step returns what that
    handler returns (nil when it succeeds); a non-nil error of the callback
    is what ends the step. *)
Theorem C10_commit_verdict_ignored g reg c iter nodeID s :
  (∀ b, ProcessNode (mkProcessHandler g reg (Some (withVerdict b c))) iter nodeID s
        = ProcessNode (mkProcessHandler g reg (Some c)) iter nodeID s)
  ∧ (∀ node pre edge post s1 s2 ha nextNode hb w3 w4,
       Reaches (mkProcessHandler g reg (Some c)) iter nodeID s node pre edge post s1 →
       ProcessEdge (mkProcessHandler g reg (Some c)) edge s1 = ((true, None), s2) →
       GetNodeAfterHandler reg (Node_NodeType node) = Some ha →
       GetNextNodeByEdge g edge = inl nextNode →
       GetNodeBeforeHandler reg (Node_NodeType nextNode) = Some hb →
       ha node (world s2) = (None, w3) →
       (∀ w5, c edge w3 = ((false, None), w4) → hb nextNode w4 = (None, w5) →
          ProcessNode (mkProcessHandler g reg (Some c)) iter nodeID s
          = (None, mkState w5 (log s2 ++ [CallAfter node; CallCirculate edge;
                                          CallBefore nextNode])))
       ∧ (∀ b e, c edge w3 = ((b, Some e), w4) →
          ProcessNode (mkProcessHandler g reg (Some c)) iter nodeID s
          = (Some e, mkState w4 (log s2 ++ [CallAfter node; CallCirculate edge])))).
Proof.
  split.
  - intros b. unfold ProcessNode. simpl.
    destruct (GetNodeByID g nodeID) as [node|]; [|done].
    destruct (GetNodeHandler reg (Node_NodeType node)) as [h|]; [|done].
    destruct (invoke (CallOn node) h node s) as [[e|] s0]; [done|].
    apply processEdges_withVerdict.
  - intros node pre edge post s1 s2 ha nextNode hb w3 w4 Hr He Ha Hn Hb Hha.
    destruct (ProcessNode_Reaches _ _ _ _ _ _ _ _ _ Hr) as [-> _].
    simpl. rewrite He.
    destruct (acceptEdge_present (mkProcessHandler g reg (Some c))
                node edge s2 ha c nextNode hb Ha eq_refl Hn Hb) as (_ & H2 & H3).
    split.
    + intros w5 Hc Hhb. by apply (H3 w3 false w4 None w5).
    + intros b e Hc. by apply (H2 w3 b e w4).
Qed.

End Step.

(** ** The step on the demonstration graph *)

Lemma demo_Started (ph : ProcessHandler nat) :
  process ph = demoGraph →
  GetNodeHandler (registry ph) "request" = Some onOk →
  Started ph "A" start nA afterOn.
Proof.
  intros Hp Hh. split.
  - rewrite Hp. reflexivity.
  - exists onOk. split; [exact Hh | reflexivity].
Defined.

Lemma demo_Reaches (ph : ProcessHandler nat) iter pre edge post :
  process ph = demoGraph →
  GetNodeHandler (registry ph) "request" = Some onOk →
  GetOutgoingEdges demoGraph iter "A" = pre ++ edge :: post →
  Declined ph pre afterOn (afterDecisions pre) →
  Reaches ph iter "A" start nA pre edge post (afterDecisions pre).
Proof.
  intros Hp Hh Hes Hd. exists afterOn. split; [by apply demo_Started|].
  split; [by rewrite Hp | done].
Defined.

Lemma C2_edges_evaluated_in_order_until_accept_witness :
  decided (log (ProcessNode phAccept swappedOrder "A" start).2) = [eLo]
  ∧ decided (log (ProcessNode phAccept declaredOrder "A" start).2) = [eHi; eLo]
  ∧ ProcessNode phDecideFail declaredOrder "A" start
    = (Some (ErrHandler "decide"), afterDecisions [eHi; eLo]).
Proof.
  split; [|split].
  - assert (Reaches phAccept swappedOrder "A" start nA [] eLo [eHi]
              (afterDecisions [])) as Hr.
    { apply demo_Reaches; [reflexivity | reflexivity | reflexivity | constructor]. }
    destruct (C2_edges_evaluated_in_order_until_accept _ _ _ _ _ _ _ _ _ Hr)
      as (_ & _ & _ & Hacc).
    apply (Hacc (afterDecisions [eLo])). reflexivity.
  - assert (Reaches phAccept declaredOrder "A" start nA [eHi] eLo []
              (afterDecisions [eHi])) as Hr.
    { apply demo_Reaches; [reflexivity | reflexivity | reflexivity |].
      econstructor; [reflexivity | constructor]. }
    destruct (C2_edges_evaluated_in_order_until_accept _ _ _ _ _ _ _ _ _ Hr)
      as (_ & _ & _ & Hacc).
    apply (Hacc (afterDecisions [eHi; eLo])). reflexivity.
  - assert (Reaches phDecideFail declaredOrder "A" start nA [eHi] eLo []
              (afterDecisions [eHi])) as Hr.
    { apply demo_Reaches; [reflexivity | reflexivity | reflexivity |].
      econstructor; [reflexivity | constructor]. }
    destruct (C2_edges_evaluated_in_order_until_accept _ _ _ _ _ _ _ _ _ Hr)
      as (_ & Herr & _ & _).
    apply (Herr false (ErrHandler "decide") (afterDecisions [eHi; eLo])).
    reflexivity.
Defined.

(** Concrete side conditions are settled by evaluation. *)
Ltac run := first [reflexivity | vm_compute; reflexivity].
Ltac declined := repeat (econstructor; [run|]); constructor.
Ltac reaches := apply demo_Reaches; [run | run | run | declined].

Lemma C3_after_commit_before_in_order_witness :
  ProcessNode phAfterFail declaredOrder "A" start
  = (Some (ErrHandler "after"),
     mkState 0%nat (log (afterDecisions [eHi; eLo]) ++ [CallAfter nA]))
  ∧ ProcessNode phCommitFail declaredOrder "A" start
    = (Some (ErrHandler "commit"),
       mkState 1%nat (log (afterDecisions [eHi; eLo])
                       ++ [CallAfter nA; CallCirculate eLo]))
  ∧ ProcessNode phBeforeFail declaredOrder "A" start
    = (Some (ErrHandler "before"),
       mkState 1%nat (log (afterDecisions [eHi; eLo])
                       ++ [CallAfter nA; CallCirculate eLo; CallBefore nC]))
  ∧ ProcessNode phAccept declaredOrder "A" start
    = (None,
       mkState 1%nat (log (afterDecisions [eHi; eLo])
                       ++ [CallAfter nA; CallCirculate eLo; CallBefore nC]))
  ∧ ProcessNode phBareCommitFail declaredOrder "A" start
    = (Some (ErrHandler "commit"),
       mkState 1%nat (log (afterDecisions [eHi; eLo]) ++ [CallCirculate eLo]))
  ∧ ProcessNode phLostAfterFail ["e_lost"] "A" start
    = (Some (ErrHandler "after"),
       mkState 0%nat (log (afterDecisions [eLost]) ++ [CallAfter nA])).
Proof.
  split; [|split; [|split; [|split; [|split]]]].
  - destruct (C3_after_commit_before_in_order phAfterFail declaredOrder "A"
                start nA [eHi] eLo [] (afterDecisions [eHi])
                (afterDecisions [eHi; eLo])) as (Hfail & _);
      [reaches | run |].
    apply (Hfail (hookFail "after")); run.
  - destruct (C3_after_commit_before_in_order phCommitFail declaredOrder "A"
                start nA [eHi] eLo [] (afterDecisions [eHi])
                (afterDecisions [eHi; eLo])) as (_ & Hcommit & _);
      [reaches | run |].
    apply (Hcommit
             (mkState 0%nat (log (afterDecisions [eHi; eLo]) ++ [CallAfter nA]))
             commitFail true); [|run ..].
    refine (AfterPassed_ran _ nA (afterDecisions [eHi; eLo]) onOk 0%nat _ _); run.
  - destruct (C3_after_commit_before_in_order phBeforeFail declaredOrder "A"
                start nA [eHi] eLo [] (afterDecisions [eHi])
                (afterDecisions [eHi; eLo])) as (_ & _ & Hrest & _);
      [reaches | run |].
    destruct (Hrest
                (mkState 0%nat (log (afterDecisions [eHi; eLo]) ++ [CallAfter nA]))
                (mkState 1%nat (log (afterDecisions [eHi; eLo])
                                 ++ [CallAfter nA; CallCirculate eLo])))
      as (_ & Hdest).
    + refine (AfterPassed_ran _ nA (afterDecisions [eHi; eLo]) onOk 0%nat _ _);
        run.
    + refine (CommitPassed_ran _ eLo
                (mkState 0%nat (log (afterDecisions [eHi; eLo]) ++ [CallAfter nA]))
                commitFalse false 1%nat _ _); run.
    + destruct (Hdest nC) as (_ & Hbefore); [run|].
      apply (Hbefore (hookFail "before")); run.
  - destruct (C3_after_commit_before_in_order phAccept declaredOrder "A"
                start nA [eHi] eLo [] (afterDecisions [eHi])
                (afterDecisions [eHi; eLo])) as (_ & _ & Hrest & _);
      [reaches | run |].
    destruct (Hrest
                (mkState 0%nat (log (afterDecisions [eHi; eLo]) ++ [CallAfter nA]))
                (mkState 1%nat (log (afterDecisions [eHi; eLo])
                                 ++ [CallAfter nA; CallCirculate eLo])))
      as (_ & Hdest).
    + refine (AfterPassed_ran _ nA (afterDecisions [eHi; eLo]) onOk 0%nat _ _);
        run.
    + refine (CommitPassed_ran _ eLo
                (mkState 0%nat (log (afterDecisions [eHi; eLo]) ++ [CallAfter nA]))
                commitFalse false 1%nat _ _); run.
    + destruct (Hdest nC) as (_ & Hbefore); [run|].
      apply (Hbefore onOk); run.
  - destruct (C3_after_commit_before_in_order phBareCommitFail declaredOrder
                "A" start nA [eHi] eLo [] (afterDecisions [eHi])
                (afterDecisions [eHi; eLo])) as (_ & Hcommit & _);
      [reaches | run |].
    apply (Hcommit (afterDecisions [eHi; eLo]) commitFail true); [|run ..].
    apply AfterPassed_absent; run.
  - destruct (C3_after_commit_before_in_order phLostAfterFail ["e_lost"] "A"
                start nA [] eLost [] (afterDecisions [])
                (afterDecisions [eLost])) as (Hfail & _); [|run |].
    + exists afterOn. split; [|split; [run | constructor]].
      split; [run|]. exists onOk. split; run.
    + apply (Hfail (hookFail "after")); run.
Defined.

Lemma C4_on_handler_error_aborts_witness :
  ProcessNode phOnFail declaredOrder "A" start
  = (Some (ErrHandler "on"), mkState 0%nat [CallOn nA])
  ∧ decided (log (ProcessNode phOnFail declaredOrder "A" start).2) = [].
Proof.
  refine (C4_on_handler_error_aborts phOnFail declaredOrder "A" start nA onFail
            (ErrHandler "on") 0%nat _ _ _); run.
Defined.

Lemma C5_missing_handler_is_fatal_witness :
  ProcessNode phEmpty declaredOrder "A" start
  = (Some (ErrNodeHandlerNotFound "request"), start)
  ∧ ProcessNode phNoDecision declaredOrder "A" start
    = (Some (ErrEdgeHandlerNotFound "route"), afterDecisions []).
Proof.
  split.
  - refine (proj1 (C5_missing_handler_is_fatal phEmpty declaredOrder "A" start
                     nA _) _); run.
  - refine (proj1 (proj2 (C5_missing_handler_is_fatal phNoDecision declaredOrder
                            "A" start nA _) [] eHi [eLo] (afterDecisions []) _ _));
      [run | reaches | run].
Defined.

Lemma C6_all_declined_no_transition_witness :
  ProcessNode phDecline declaredOrder "A" start
  = (None, afterDecisions [eHi; eLo]).
Proof.
  refine (proj1 (C6_all_declined_no_transition phDecline declaredOrder "A" start
                   nA afterOn (afterDecisions [eHi; eLo]) _ _)).
  - apply demo_Started; run.
  - change (GetOutgoingEdges (process phDecline) declaredOrder "A")
      with [eHi; eLo]. declined.
Defined.

Lemma C10_commit_verdict_ignored_witness :
  ProcessNode phAccept declaredOrder "A" start
  = (None,
     mkState 1%nat (log (afterDecisions [eHi; eLo])
                     ++ [CallAfter nA; CallCirculate eLo; CallBefore nC]))
  ∧ ProcessNode phCommitFail declaredOrder "A" start
    = (Some (ErrHandler "commit"),
       mkState 1%nat (log (afterDecisions [eHi; eLo])
                       ++ [CallAfter nA; CallCirculate eLo])).
Proof.
  split.
  - refine (proj1 (proj2 (C10_commit_verdict_ignored demoGraph
      (nodeHooks onOk onOk (demoRegistry onOk acceptLow)) commitFalse
      declaredOrder "A" start) nA [eHi] eLo [] (afterDecisions [eHi])
      (afterDecisions [eHi; eLo]) onOk nC onOk 0%nat 1%nat _ _ _ _ _ _)
      1%nat _ _); [reaches | run ..].
  - refine (proj2 (proj2 (C10_commit_verdict_ignored demoGraph
      (nodeHooks onOk onOk (demoRegistry onOk acceptLow)) commitFail
      declaredOrder "A" start) nA [eHi] eLo [] (afterDecisions [eHi])
      (afterDecisions [eHi; eLo]) onOk nC onOk 0%nat 1%nat _ _ _ _ _ _)
      true (ErrHandler "commit") _); [reaches | run ..].
Defined.

(** ** More on the graph: what [NewProcess] stores and what the lookups
       return *)

Section Index.

Context {A : Type} (key : A → string).

(** The indexing loops of [NewProcess]. *)
Lemma index_lookup (l : list A) (m : gmap string A) (k : string) :
  foldl (λ m x, <[key x := x]> m) m l !! k
  = match last (filter (λ x, key x = k) l) with
    | Some x => Some x
    | None => m !! k
    end.
Proof.
  induction l as [|x l IH] using rev_ind; [done|].
  rewrite foldl_snoc, filter_app, filter_cons, filter_nil.
  case_decide as Hk.
  - subst k. by rewrite last_snoc, lookup_insert_eq.
  - by rewrite app_nil_r, lookup_insert_ne.
Qed.

Lemma index_list_to_map (l : list A) :
  foldl (λ m x, <[key x := x]> m) (∅ : gmap string A) l
  = list_to_map ((λ x, (key x, x)) <$> reverse l).
Proof.
  induction l as [|x l IH] using rev_ind; [done|].
  by rewrite foldl_snoc, reverse_snoc, fmap_cons, list_to_map_cons, IH.
Qed.

Lemma index_keys (l : list A) :
  ((λ x, (key x, x)) <$> l).*1 = key <$> l.
Proof. rewrite <- list_fmap_compose. done. Qed.

Lemma index_values (l : list A) :
  ((λ x, (key x, x)) <$> l).*2 = l.
Proof. rewrite <- list_fmap_compose. apply list_fmap_id. Qed.

(** Without repeated keys, the map holds the list, whatever its order. *)
Lemma index_Permutation (l l' : list A) :
  NoDup (key <$> l) → l ≡ₚ l' →
  foldl (λ m x, <[key x := x]> m) (∅ : gmap string A) l
  = foldl (λ m x, <[key x := x]> m) ∅ l'.
Proof.
  intros Hnd Hp. rewrite !index_list_to_map. apply list_to_map_proper.
  - by rewrite index_keys, fmap_reverse, reverse_Permutation.
  - by rewrite !reverse_Permutation, Hp.
Qed.

Lemma index_map_to_list (l : list A) :
  NoDup (key <$> l) →
  (map_to_list (foldl (λ m x, <[key x := x]> m) (∅ : gmap string A) l)).*2 ≡ₚ l.
Proof.
  intros Hnd. rewrite index_list_to_map, map_to_list_to_map.
  - by rewrite index_values, reverse_Permutation.
  - by rewrite index_keys, fmap_reverse, reverse_Permutation.
Qed.

End Index.

(** Looking up the keys of a map, in any order, yields its values. *)
Lemma omap_lookup_keys {V} (m : gmap string V) :
  omap (λ k, m !! k) (map_to_list m).*1 = (map_to_list m).*2.
Proof.
  enough (∀ l : list (string * V),
            Forall (λ kv, m !! kv.1 = Some kv.2) l →
            omap (λ k, m !! k) l.*1 = l.*2) as H.
  { apply H, Forall_forall. intros [k v]. apply elem_of_map_to_list. }
  induction 1 as [|[k v] l Hkv _ IH]; csimpl in *; [done|].
  by rewrite Hkv, IH.
Qed.

Lemma MapRange_values {V} (m : gmap string V) iter :
  MapRange m iter → omap (λ k, m !! k) iter ≡ₚ (map_to_list m).*2.
Proof. intros Hr. rewrite Hr. by rewrite omap_lookup_keys. Qed.

Lemma GetIncomingEdges_filter p iter nodeID :
  GetIncomingEdges p iter nodeID
  = filter (λ e, Edge_DstID e = nodeID) (omap (λ k, edges p !! k) iter).
Proof.
  unfold GetIncomingEdges.
  enough (∀ acc,
    foldl (λ acc k,
             match edges p !! k with
             | Some edge =>
                 if decide (Edge_DstID edge = nodeID) then acc ++ [edge] else acc
             | None => acc
             end) acc iter
    = acc ++ filter (λ e, Edge_DstID e = nodeID) (omap (λ k, edges p !! k) iter))
    as H by apply (H []).
  induction iter as [|k iter IH]; intros acc; simpl.
  - by rewrite app_nil_r.
  - rewrite IH. destruct (edges p !! k) as [e|]; [|done].
    rewrite filter_cons. case_decide; [|done]. by rewrite <- app_assoc.
Qed.

Lemma NewProcess_nodes_lookup process k :
  nodes (NewProcess process).1 !! k
  = last (filter (λ n, Node_ID n = k) (Nodes process)).
Proof.
  simpl. rewrite (index_lookup Node_ID).
  destruct (last _); [done | apply lookup_empty].
Qed.

Lemma NewProcess_edges_values process :
  NoDup (Edge_ID <$> Edges process) →
  (map_to_list (edges (NewProcess process).1)).*2 ≡ₚ Edges process.
Proof. intros Hnd. simpl. by apply (index_map_to_list Edge_ID). Qed.

(** X1.  In the graph built by [NewProcess], [GetNodeByID] returns the last
    node of [Nodes] that carries the ID asked for (a repeated ID keeps only
    its last declaration), and reports absence exactly when no declared
    node has that ID; a node found is a declared node with that ID. *)
Theorem X1_GetNodeByID_last_declared (process : Process) (nodeID : string) :
  GetNodeByID (NewProcess process).1 nodeID
  = last (filter (λ n, Node_ID n = nodeID) (Nodes process))
  ∧ (GetNodeByID (NewProcess process).1 nodeID = None
     ↔ ∀ n, n ∈ Nodes process → Node_ID n ≠ nodeID)
  ∧ (∀ n, GetNodeByID (NewProcess process).1 nodeID = Some n →
          n ∈ Nodes process ∧ Node_ID n = nodeID).
Proof.
  unfold GetNodeByID. rewrite NewProcess_nodes_lookup.
  split; [done|]. split.
  - rewrite last_None. split.
    + intros Hf n Hn Hid.
      by apply (filter_nil_not_elem_of _ _ n Hf).
    + intros Hno. apply elem_of_nil_inv. intros n.
      rewrite list_elem_of_filter. intros [Hid Hn]. by apply (Hno n).
  - intros n Hl. apply last_Some_elem_of in Hl.
    apply list_elem_of_filter in Hl as [? ?]. done.
Qed.

Lemma X1_GetNodeByID_last_declared_witness :
  GetNodeByID demoGraph "Z" = None
  ∧ (nB ∈ Nodes demo ∧ Node_ID nB = "B").
Proof.
  destruct (X1_GetNodeByID_last_declared demo "Z") as (_ & Hnone & _).
  destruct (X1_GetNodeByID_last_declared demo "B") as (_ & _ & Hsome).
  split.
  - apply Hnone. intros n Hn.
    change (n ∈ [nA; nB; nC]) in Hn.
    apply elem_of_cons in Hn as [->|Hn]; [done|].
    apply elem_of_cons in Hn as [->|Hn]; [done|].
    apply elem_of_cons in Hn as [->|Hn]; [done|].
    by apply elem_of_nil in Hn.
  - apply Hsome. reflexivity.
Defined.

(** X2.  When the node IDs of the definition are pairwise distinct, every
    declared node is found under its own ID. *)
Theorem X2_declared_node_found (process : Process) (n : Node) :
  NoDup (Node_ID <$> Nodes process) →
  n ∈ Nodes process →
  GetNodeByID (NewProcess process).1 (Node_ID n) = Some n.
Proof.
  intros Hnd Hn. unfold GetNodeByID. simpl.
  rewrite (index_list_to_map Node_ID).
  apply elem_of_list_to_map.
  - by rewrite index_keys, fmap_reverse, reverse_Permutation.
  - apply list_elem_of_fmap. exists n. split; [done|].
    by rewrite reverse_Permutation.
Qed.

Lemma demo_Nodes_NoDup : NoDup (Node_ID <$> Nodes demo).
Proof. apply (bool_decide_unpack _). vm_compute. reflexivity. Defined.

Lemma demo_Edges_NoDup : NoDup (Edge_ID <$> Edges demo).
Proof. apply (bool_decide_unpack _). vm_compute. reflexivity. Defined.

Lemma X2_declared_node_found_witness :
  GetNodeByID demoGraph (Node_ID nC) = Some nC.
Proof.
  apply (X2_declared_node_found demo nC demo_Nodes_NoDup).
  change (nC ∈ [nA; nB; nC]). do 2 apply list_elem_of_further.
  apply list_elem_of_here.
Defined.

(** X3.  On a graph built by [NewProcess], the node that
    [GetNextNodeByEdge] resolves is a declared node whose ID is the edge's
    [DstID]; the lookup fails exactly when no declared node has that ID,
    whether or not the edge itself was declared. *)
Theorem X3_GetNextNodeByEdge_on_built_graph (process : Process) (edge : Edge) :
  (∀ n, GetNextNodeByEdge (NewProcess process).1 edge = inl n →
        n ∈ Nodes process ∧ Node_ID n = Edge_DstID edge)
  ∧ (GetNextNodeByEdge (NewProcess process).1 edge
     = inr (ErrDestinationUnresolved (Edge_ID edge))
     ↔ ∀ n, n ∈ Nodes process → Node_ID n ≠ Edge_DstID edge).
Proof.
  unfold GetNextNodeByEdge, GetNodeByID. rewrite NewProcess_nodes_lookup.
  destruct (last _) as [n|] eqn:Hl.
  - pose proof (last_Some_elem_of _ _ Hl) as [Hid Hn]%list_elem_of_filter.
    split.
    + by intros ? [= <-].
    + split; [done|]. intros Hno. by destruct (Hno n).
  - apply last_None in Hl. split; [done|]. split; [|done].
    intros _ n Hn Hid. by apply (filter_nil_not_elem_of _ _ n Hl).
Qed.

Lemma X3_GetNextNodeByEdge_on_built_graph_witness :
  nB ∈ Nodes demo ∧ Node_ID nB = Edge_DstID eHi.
Proof.
  apply (X3_GetNextNodeByEdge_on_built_graph demo eHi). reflexivity.
Defined.

(** X4.  When the edge IDs of the definition are pairwise distinct, then in
    whatever order the loop meets the entries of the edge map,
    [GetOutgoingEdges] returns each declared edge whose source is [nodeID]
    exactly once, and nothing else. *)
Theorem X4_GetOutgoingEdges_are_declared_edges (process : Process)
    (iter : list string) (nodeID : string) :
  NoDup (Edge_ID <$> Edges process) →
  MapRange (edges (NewProcess process).1) iter →
  GetOutgoingEdges (NewProcess process).1 iter nodeID
  ≡ₚ filter (λ e, Edge_SrcID e = nodeID) (Edges process).
Proof.
  intros Hnd Hr. rewrite GetOutgoingEdges_filter.
  by rewrite (MapRange_values _ _ Hr), NewProcess_edges_values.
Qed.

Lemma X4_GetOutgoingEdges_are_declared_edges_witness :
  GetOutgoingEdges demoGraph swappedOrder "A"
  ≡ₚ filter (λ e, Edge_SrcID e = "A") (Edges demo).
Proof.
  exact (X4_GetOutgoingEdges_are_declared_edges demo swappedOrder "A"
           demo_Edges_NoDup demoGraph_range_swapped).
Defined.

(** X5.  Likewise [GetIncomingEdges] returns each declared edge whose
    destination is [nodeID] exactly once, and nothing else. *)
Theorem X5_GetIncomingEdges_are_declared_edges (process : Process)
    (iter : list string) (nodeID : string) :
  NoDup (Edge_ID <$> Edges process) →
  MapRange (edges (NewProcess process).1) iter →
  GetIncomingEdges (NewProcess process).1 iter nodeID
  ≡ₚ filter (λ e, Edge_DstID e = nodeID) (Edges process).
Proof.
  intros Hnd Hr. rewrite GetIncomingEdges_filter.
  by rewrite (MapRange_values _ _ Hr), NewProcess_edges_values.
Qed.

Lemma X5_GetIncomingEdges_are_declared_edges_witness :
  GetIncomingEdges demoGraph swappedOrder "B"
  ≡ₚ filter (λ e, Edge_DstID e = "B") (Edges demo).
Proof.
  exact (X5_GetIncomingEdges_are_declared_edges demo swappedOrder "B"
           demo_Edges_NoDup demoGraph_range_swapped).
Defined.

(** X6.  On any graph, two runs of [GetOutgoingEdges] (or of
    [GetIncomingEdges]) for the same node differ at most in the order of
    the edges returned: the order in which the map is ranged over changes
    neither which edges are returned nor how many times. *)
Theorem X6_edge_queries_differ_in_order_only (p : Graph)
    (iter1 iter2 : list string) (nodeID : string) :
  MapRange (edges p) iter1 →
  MapRange (edges p) iter2 →
  GetOutgoingEdges p iter1 nodeID ≡ₚ GetOutgoingEdges p iter2 nodeID
  ∧ GetIncomingEdges p iter1 nodeID ≡ₚ GetIncomingEdges p iter2 nodeID.
Proof.
  intros H1 H2.
  rewrite !GetOutgoingEdges_filter, !GetIncomingEdges_filter.
  by rewrite (MapRange_values _ _ H1), (MapRange_values _ _ H2).
Qed.

Lemma X6_edge_queries_differ_in_order_only_witness :
  GetOutgoingEdges demoGraph declaredOrder "A"
  ≡ₚ GetOutgoingEdges demoGraph swappedOrder "A"
  ∧ GetIncomingEdges demoGraph declaredOrder "A"
    ≡ₚ GetIncomingEdges demoGraph swappedOrder "A".
Proof.
  exact (X6_edge_queries_differ_in_order_only demoGraph declaredOrder
           swappedOrder "A" demoGraph_range_declared demoGraph_range_swapped).
Defined.

Lemma GetIncomingEdges_elem_of p iter nodeID e :
  MapRange (edges p) iter →
  e ∈ GetIncomingEdges p iter nodeID
  ↔ Edge_DstID e = nodeID ∧ ∃ k, edges p !! k = Some e.
Proof.
  intros Hr. rewrite GetIncomingEdges_filter, list_elem_of_filter.
  rewrite list_elem_of_omap. split.
  - intros [Hs (k & _ & Hk)]. eauto.
  - intros [Hs [k Hk]]. split; [done|]. exists k. split; [|done].
    rewrite Hr. apply list_elem_of_fmap. exists (k, e). split; [done|].
    by apply elem_of_map_to_list.
Qed.

(** X7.  The two edge queries agree with each other: an edge is among the
    outgoing edges of its source exactly when it is among the incoming
    edges of its destination, and both hold for every edge stored in the
    graph. *)
Theorem X7_outgoing_incoming_agree (p : Graph) (iter1 iter2 : list string)
    (e : Edge) :
  MapRange (edges p) iter1 →
  MapRange (edges p) iter2 →
  (e ∈ GetOutgoingEdges p iter1 (Edge_SrcID e)
   ↔ e ∈ GetIncomingEdges p iter2 (Edge_DstID e))
  ∧ (∀ k, edges p !! k = Some e →
          e ∈ GetOutgoingEdges p iter1 (Edge_SrcID e)
          ∧ e ∈ GetIncomingEdges p iter2 (Edge_DstID e)).
Proof.
  intros H1 H2.
  pose proof (GetOutgoingEdges_elem_of p iter1 (Edge_SrcID e) e H1) as Ho.
  pose proof (GetIncomingEdges_elem_of p iter2 (Edge_DstID e) e H2) as Hi.
  split.
  - rewrite Ho, Hi. split; intros [_ Hk]; done.
  - intros k Hk. split; [apply Ho | apply Hi]; eauto.
Qed.

Lemma X7_outgoing_incoming_agree_witness :
  eHi ∈ GetOutgoingEdges demoGraph declaredOrder (Edge_SrcID eHi)
  ∧ eHi ∈ GetIncomingEdges demoGraph swappedOrder (Edge_DstID eHi).
Proof.
  apply (proj2 (X7_outgoing_incoming_agree demoGraph declaredOrder swappedOrder
                  eHi demoGraph_range_declared demoGraph_range_swapped) "e_hi").
  reflexivity.
Defined.

(** X8.  When node IDs and edge IDs are pairwise distinct, the graph built
    does not depend on the order in which nodes and edges are declared. *)
Theorem X8_graph_independent_of_declaration_order (process process' : Process) :
  NoDup (Node_ID <$> Nodes process) →
  NoDup (Edge_ID <$> Edges process) →
  Nodes process ≡ₚ Nodes process' →
  Edges process ≡ₚ Edges process' →
  (NewProcess process).1 = (NewProcess process').1.
Proof.
  intros Hn He Hpn Hpe. simpl. f_equal.
  - by apply (index_Permutation Node_ID).
  - by apply (index_Permutation Edge_ID).
Qed.

Lemma X8_graph_independent_of_declaration_order_witness :
  (NewProcess demo).1 = (NewProcess (mkProcess [nC; nA; nB] [eLo; eHi])).1.
Proof.
  apply (X8_graph_independent_of_declaration_order demo
           (mkProcess [nC; nA; nB] [eLo; eHi]) demo_Nodes_NoDup demo_Edges_NoDup).
  - change ([nA; nB; nC] ≡ₚ [nC; nA; nB]).
    symmetry. apply (Permutation_cons_append [nA; nB] nC).
  - apply perm_swap.
Defined.

(** X9.  [NewProcess] reorders the [Edges] of the definition it is given,
    but when edge IDs are pairwise distinct the definition it leaves behind
    still describes the same graph: building again from it gives the graph
    built the first time. *)
Theorem X9_rebuilding_gives_same_graph (process : Process) :
  NoDup (Edge_ID <$> Edges process) →
  (NewProcess (NewProcess process).2).1 = (NewProcess process).1.
Proof.
  intros He. simpl. f_equal. symmetry.
  apply (index_Permutation Edge_ID); [done|].
  symmetry. apply sort_Slice_Permutation.
Qed.

Lemma X9_rebuilding_gives_same_graph_witness :
  (NewProcess (NewProcess demo).2).1 = (NewProcess demo).1.
Proof. exact (X9_rebuilding_gives_same_graph demo demo_Edges_NoDup). Defined.

(** With a repeated edge ID the hypothesis of X9 is needed: the sort can
    change which of the two declarations is the last, hence which one the
    rebuilt graph keeps. *)
Example rebuilding_with_repeated_edge_ID :
  let twice := mkProcess [nA; nB; nC]
                 [mkEdge "e" "B" "A" 2 "route" emptyExtras;
                  mkEdge "e" "C" "A" 1 "route" emptyExtras] in
  Edge_DstID <$> edges (NewProcess twice).1 !! "e" = Some "C"
  ∧ Edge_DstID <$> edges (NewProcess (NewProcess twice).2).1 !! "e" = Some "B".
Proof. split; vm_compute; reflexivity. Qed.

(** ** The registry *)

Section Registry.

Context {W : Type}.
Implicit Types (r : ProcessRegistry W).

(** X10.  Each [Get*Handler] returns the handler last registered for the
    tag asked for, and a registration for one tag leaves the handlers of
    the other tags of the same kind as they were. *)
Theorem X10_registered_handler_is_found r (t t' : string)
    (hn : @NodeHandlerFunc W) (ha : @NodeHandlerAfterFunc W)
    (hb : @NodeHandlerBeforeFunc W) (he : @EdgeHandlerFunc W) :
  (GetNodeHandler (RegisterNodeHandler r t hn) t = Some hn
   ∧ GetNodeAfterHandler (RegisterNodeAfterHandler r t ha) t = Some ha
   ∧ GetNodeBeforeHandler (RegisterNodeBeforeHandler r t hb) t = Some hb
   ∧ GetEdgeHandler (RegisterEdgeHandler r t he) t = Some he)
  ∧ (t ≠ t' →
     GetNodeHandler (RegisterNodeHandler r t hn) t' = GetNodeHandler r t'
     ∧ GetNodeAfterHandler (RegisterNodeAfterHandler r t ha) t'
       = GetNodeAfterHandler r t'
     ∧ GetNodeBeforeHandler (RegisterNodeBeforeHandler r t hb) t'
       = GetNodeBeforeHandler r t'
     ∧ GetEdgeHandler (RegisterEdgeHandler r t he) t' = GetEdgeHandler r t').
Proof.
  unfold GetNodeHandler, GetNodeAfterHandler, GetNodeBeforeHandler,
    GetEdgeHandler. simpl. split.
  - by rewrite !lookup_insert_eq.
  - intros Hne. by rewrite !lookup_insert_ne.
Qed.

(** X11.  Registering a tag again replaces the earlier handler and leaves
    no other trace of it; registrations for different tags can be made in
    either order. *)
Theorem X11_registration_replaces_and_commutes r (t t' : string)
    (h1 h2 : @NodeHandlerFunc W) (e1 e2 : @EdgeHandlerFunc W) :
  (RegisterNodeHandler (RegisterNodeHandler r t h1) t h2
   = RegisterNodeHandler r t h2
   ∧ RegisterEdgeHandler (RegisterEdgeHandler r t e1) t e2
     = RegisterEdgeHandler r t e2)
  ∧ (t ≠ t' →
     RegisterNodeHandler (RegisterNodeHandler r t h1) t' h2
     = RegisterNodeHandler (RegisterNodeHandler r t' h2) t h1
     ∧ RegisterEdgeHandler (RegisterEdgeHandler r t e1) t' e2
       = RegisterEdgeHandler (RegisterEdgeHandler r t' e2) t e1)
  ∧ RegisterEdgeHandler (RegisterNodeHandler r t h1) t' e1
    = RegisterNodeHandler (RegisterEdgeHandler r t' e1) t h1.
Proof.
  unfold RegisterNodeHandler, RegisterEdgeHandler. simpl.
  split; [|split; [|done]].
  - by rewrite !insert_insert_eq.
  - intros Hne. split; f_equal; by apply insert_insert_ne.
Qed.

End Registry.

Lemma X10_registered_handler_is_found_witness :
  GetNodeHandler (RegisterNodeHandler (nodeRegistry onOk) "request" onFail)
                 "approval"
  = GetNodeHandler (nodeRegistry onOk) "approval".
Proof.
  apply (proj2 (X10_registered_handler_is_found (nodeRegistry onOk)
                  "request" "approval" onFail onOk onOk acceptLow)).
  discriminate.
Defined.

Lemma X11_registration_replaces_and_commutes_witness :
  RegisterNodeHandler (RegisterNodeHandler NewProcessRegistry "request" onOk)
                      "approval" onFail
  = RegisterNodeHandler (RegisterNodeHandler NewProcessRegistry "approval" onFail)
                        "request" onOk.
Proof.
  apply (proj1 (proj2 (X11_registration_replaces_and_commutes NewProcessRegistry
                         "request" "approval" onOk onFail acceptLow declineAll))).
  discriminate.
Defined.

(** ** More on the step *)

Section StepMore.

Context {W : Type}.
Implicit Types (ph : ProcessHandler W) (s : State W) (es pre post : list Edge).

Lemma calls_app kind tr1 tr2 :
  calls kind (tr1 ++ tr2) = (calls kind tr1 + calls kind tr2)%nat.
Proof. unfold calls. by rewrite filter_app, length_app. Qed.

(** What follows an acceptance: at most one call of each hook, in the log
    after what was there, and no on-handler or decision-handler. *)
Lemma acceptEdge_calls ph node edge s :
  ∃ tr, log (acceptEdge ph node edge s).2 = log s ++ tr
        ∧ decided tr = []
        ∧ calls isOn tr = 0%nat
        ∧ (calls isAfter tr ≤ 1)%nat
        ∧ (calls isCirculate tr ≤ 1)%nat
        ∧ (calls isBefore tr ≤ 1)%nat.
Proof.
  unfold acceptEdge.
  destruct (GetNodeAfterHandler (registry ph) (Node_NodeType node)) as [ha|].
  2: destruct (circulate ph) as [c|].
  3: destruct (GetNextNodeByEdge (process ph) edge) as [n|e].
  3: destruct (GetNodeBeforeHandler (registry ph) (Node_NodeType n)) as [hb|].
  all: unfold invoke; simpl.
  all: repeat match goal with
       | |- context [let '(_, _) := ?h ?x ?w in _] =>
           destruct (h x w) as [[]?] eqn:?; simpl
       | |- context [match ?o with Some _ => _ | None => _ end] =>
           destruct o eqn:?; simpl
       | |- context [match ?o with inl _ => _ | inr _ => _ end] =>
           destruct o eqn:?; simpl
       end.
  all: try (eexists; split; [rewrite <- ?app_assoc; reflexivity |];
            repeat split; vm_compute; lia).
  all: try (exists []; split; [by rewrite app_nil_r |];
            repeat split; vm_compute; lia).
Qed.

Lemma processEdges_calls ph node es s :
  ∃ tr, log (processEdges ph node es s).2 = log s ++ tr
        ∧ decided tr `prefix_of` es
        ∧ calls isOn tr = 0%nat
        ∧ (calls isAfter tr ≤ 1)%nat
        ∧ (calls isCirculate tr ≤ 1)%nat
        ∧ (calls isBefore tr ≤ 1)%nat.
Proof.
  revert s. induction es as [|edge es IH]; intros s; simpl.
  { exists []. rewrite app_nil_r. repeat split; try (vm_compute; lia).
    apply prefix_nil. }
  destruct (ProcessEdge ph edge s) as [[ok err] s1] eqn:He.
  destruct (ProcessEdge_log _ _ _ _ _ He) as [[_ Hl]|(_ & [= -> ->] & ->)].
  2: { exists []. rewrite app_nil_r. repeat split; try (vm_compute; lia).
       apply prefix_nil. }
  assert (∀ tr, log s1 ++ tr = log s ++ CallDecide edge :: tr) as Hs1.
  { intros tr. by rewrite Hl, <- app_assoc. }
  destruct err as [e|]; [|destruct ok].
  - exists [CallDecide edge]. simpl. split; [done|].
    split; [apply (prefix_cons _ []), prefix_nil|].
    repeat split; vm_compute; lia.
  - destruct (acceptEdge_calls ph node edge s1)
      as (tr & -> & Hd & Hon & Ha & Hc & Hb).
    exists (CallDecide edge :: tr). split; [apply Hs1|].
    change (CallDecide edge :: tr) with ([CallDecide edge] ++ tr).
    rewrite decided_app, Hd, !calls_app, Hon. simpl.
    split; [apply (prefix_cons _ []), prefix_nil|].
    repeat split; first [done | exact Ha | exact Hc | exact Hb].
  - destruct (IH s1) as (tr & -> & Hd & Hon & Ha & Hc & Hb).
    exists (CallDecide edge :: tr). split; [apply Hs1|].
    change (CallDecide edge :: tr) with ([CallDecide edge] ++ tr).
    rewrite decided_app, !calls_app, Hon. simpl.
    split; [by apply prefix_cons|].
    repeat split; first [done | exact Ha | exact Hc | exact Hb].
Qed.

(** X12.  Whatever the graph, the registry, the handlers and the order of
    the map: one step only adds to the log; it calls the on-handler, each
    hook and the state-commit callback at most once (the engine never goes
    on to the next node by itself), and the decision-handlers it calls are
    those of an initial part of the outgoing edges, in their order. *)
Theorem X12_one_step_calls ph iter nodeID s :
  ∃ tr, log (ProcessNode ph iter nodeID s).2 = log s ++ tr
        ∧ decided tr `prefix_of` GetOutgoingEdges (process ph) iter nodeID
        ∧ (calls isOn tr ≤ 1)%nat
        ∧ (calls isAfter tr ≤ 1)%nat
        ∧ (calls isCirculate tr ≤ 1)%nat
        ∧ (calls isBefore tr ≤ 1)%nat.
Proof.
  assert (∃ tr : list Event, log s = log s ++ tr
            ∧ decided tr `prefix_of` GetOutgoingEdges (process ph) iter nodeID
            ∧ (calls isOn tr ≤ 1)%nat ∧ (calls isAfter tr ≤ 1)%nat
            ∧ (calls isCirculate tr ≤ 1)%nat ∧ (calls isBefore tr ≤ 1)%nat)
    as Hnothing.
  { exists []. rewrite app_nil_r. split; [done|]. split; [apply prefix_nil|].
    repeat split; vm_compute; lia. }
  unfold ProcessNode.
  destruct (GetNodeByID (process ph) nodeID) as [node|]; [|done].
  destruct (GetNodeHandler (registry ph) (Node_NodeType node)) as [h|]; [|done].
  destruct (invoke (CallOn node) h node s) as [err s0] eqn:Hon.
  apply invoke_log in Hon as [_ Hl0].
  destruct err as [e|].
  - exists [CallOn node]. split; [done|]. split; [apply prefix_nil|].
    repeat split; vm_compute; lia.
  - destruct (processEdges_calls ph node
                (GetOutgoingEdges (process ph) iter nodeID) s0)
      as (tr & -> & Hd & Hon & Ha & Hc & Hb).
    exists (CallOn node :: tr). rewrite Hl0, <- app_assoc.
    split; [done|].
    change (CallOn node :: tr) with ([CallOn node] ++ tr).
    rewrite decided_app, !calls_app, Hon. simpl.
    repeat split; first [done | exact Ha | exact Hc | exact Hb | vm_compute; lia].
Qed.

End StepMore.

Section StepEdgeCases.

Context {W : Type}.
Implicit Types (ph : ProcessHandler W) (s : State W) (es pre post : list Edge).

(** Every edge stored in a graph built by [NewProcess] is a declared
    edge. *)
Lemma NewProcess_edges_declared process k e :
  edges (NewProcess process).1 !! k = Some e → e ∈ Edges process.
Proof.
  simpl. rewrite (index_lookup Edge_ID).
  destruct (last _) as [e'|] eqn:Hl; [|by rewrite lookup_empty].
  intros [= <-]. apply last_Some_elem_of in Hl.
  by apply list_elem_of_filter in Hl as [_ ?].
Qed.

Lemma GetOutgoingEdges_declared process iter nodeID e :
  e ∈ GetOutgoingEdges (NewProcess process).1 iter nodeID →
  e ∈ Edges process ∧ Edge_SrcID e = nodeID.
Proof.
  rewrite GetOutgoingEdges_filter, list_elem_of_filter, list_elem_of_omap.
  intros [Hs (k & _ & Hk)]. split; [|done].
  by eapply NewProcess_edges_declared.
Qed.

(** X13.  A step on an ID that no declared node carries fails with the
    "node does not exist" error, and calls nothing. *)
Theorem X13_unknown_node_fails defn reg c iter nodeID s :
  (∀ n, n ∈ Nodes defn → Node_ID n ≠ nodeID) →
  ProcessNode (mkProcessHandler (NewProcess defn).1 reg c) iter nodeID s
  = (Some (ErrNodeNotFound nodeID), s).
Proof.
  intros Hno. unfold ProcessNode, GetNodeByID.
  cbn [process]. rewrite NewProcess_nodes_lookup.
  destruct (last _) as [n|] eqn:Hl; [|done].
  apply last_Some_elem_of, list_elem_of_filter in Hl as [Hid Hn].
  by destruct (Hno n).
Qed.

(** X14.  When the accepted edge leads to a node that is not in the graph,
    the step fails with the "destination not found" error only after the
    after-handler and the state-commit callback have run: their effects
    stay, and no before-handler is called. *)
Theorem X14_unresolved_destination_after_commit ph iter nodeID s node
    pre edge post s1 s2 ha c w3 b w4 :
  Reaches ph iter nodeID s node pre edge post s1 →
  ProcessEdge ph edge s1 = ((true, None), s2) →
  GetNodeAfterHandler (registry ph) (Node_NodeType node) = Some ha →
  circulate ph = Some c →
  GetNodeByID (process ph) (Edge_DstID edge) = None →
  ha node (world s2) = (None, w3) →
  c edge w3 = ((b, None), w4) →
  ProcessNode ph iter nodeID s
  = (Some (ErrDestinationUnresolved (Edge_ID edge)),
     mkState w4 (log s2 ++ [CallAfter node; CallCirculate edge])).
Proof.
  intros Hr He Ha Hc Hn Hha Hcc.
  destruct (ProcessNode_Reaches _ _ _ _ _ _ _ _ _ Hr) as [-> _].
  simpl. rewrite He. unfold acceptEdge, invoke, GetNextNodeByEdge.
  rewrite Ha, Hc, Hn, Hha. simpl. rewrite Hcc. simpl.
  by rewrite <- app_assoc.
Qed.

(** X15.  The hooks and the callback are optional: with no after-handler
    for the source node, no state-commit callback, and no before-handler
    for the destination, which is in the graph, an accepted edge ends the
    step with nil and nothing is called after the decision-handler. *)
Theorem X15_accept_without_hooks ph iter nodeID s node pre edge post s1 s2
    nextNode :
  Reaches ph iter nodeID s node pre edge post s1 →
  ProcessEdge ph edge s1 = ((true, None), s2) →
  GetNodeAfterHandler (registry ph) (Node_NodeType node) = None →
  circulate ph = None →
  GetNodeByID (process ph) (Edge_DstID edge) = Some nextNode →
  GetNodeBeforeHandler (registry ph) (Node_NodeType nextNode) = None →
  ProcessNode ph iter nodeID s = (None, s2)
  ∧ log s2 = log s ++ CallOn node :: (CallDecide <$> pre ++ [edge]).
Proof.
  intros Hr He Ha Hc Hn Hb.
  destruct (ProcessNode_Reaches _ _ _ _ _ _ _ _ _ Hr) as [-> Hl].
  simpl. rewrite He. unfold acceptEdge, GetNextNodeByEdge.
  rewrite Ha, Hc, Hn, Hb. split; [done|].
  rewrite (ProcessEdge_ok_log _ _ _ _ _ He), Hl, fmap_app. simpl.
  by rewrite <- app_assoc.
Qed.

(** X16.  A node that no declared edge leaves is terminal: once its
    on-handler has returned nil the step returns nil, whatever the order of
    the map, and the on-handler is the only call made. *)
Theorem X16_terminal_node defn reg c iter nodeID s node s0 :
  Started (mkProcessHandler (NewProcess defn).1 reg c) nodeID s node s0 →
  (∀ e, e ∈ Edges defn → Edge_SrcID e ≠ nodeID) →
  ProcessNode (mkProcessHandler (NewProcess defn).1 reg c) iter nodeID s
  = (None, s0)
  ∧ log s0 = log s ++ [CallOn node].
Proof.
  intros Hst Hno.
  destruct (ProcessNode_Started _ iter _ _ _ _ Hst) as [-> Hl].
  split; [|done]. cbn [process].
  assert (GetOutgoingEdges (NewProcess defn).1 iter nodeID = []) as ->.
  { apply elem_of_nil_inv. intros e [He Hs]%GetOutgoingEdges_declared.
    by apply (Hno e). }
  done.
Qed.

(** X17.  A registry in which nothing was registered (its maps are nil) is
    read without harm: every step fails, for want of the node or of its
    on-handler, and every edge evaluation fails for want of a
    decision-handler; nothing is called. *)
Theorem X17_empty_registry_fails g c iter nodeID edge s :
  ProcessNode (mkProcessHandler g NewProcessRegistry c) iter nodeID s
  = (Some match GetNodeByID g nodeID with
          | Some node => ErrNodeHandlerNotFound (Node_NodeType node)
          | None => ErrNodeNotFound nodeID
          end, s)
  ∧ ProcessEdge (mkProcessHandler g NewProcessRegistry c) edge s
    = ((false, Some (ErrEdgeHandlerNotFound (Edge_EdgeType edge))), s).
Proof.
  unfold ProcessNode, ProcessEdge, GetNodeHandler, GetEdgeHandler. simpl.
  rewrite !lookup_empty. by destruct (GetNodeByID g nodeID).
Qed.

End StepEdgeCases.

(** ** The workflow of the tests *)

Lemma leave_Edges_NoDup : NoDup (Edge_ID <$> Edges createLeaveProcess).
Proof. apply (bool_decide_unpack _). vm_compute. reflexivity. Defined.

(** Each node of the workflow has at most one outgoing edge, so the order
    of the map does not show. *)
Lemma leave_outgoing iter nodeID :
  MapRange (edges (NewProcess createLeaveProcess).1) iter →
  GetOutgoingEdges (NewProcess createLeaveProcess).1 iter nodeID
  = filter (λ e, Edge_SrcID e = nodeID) [approvalEdge; completeEdge].
Proof.
  intros Hr.
  assert (GetOutgoingEdges (NewProcess createLeaveProcess).1 iter nodeID
          ≡ₚ filter (λ e, Edge_SrcID e = nodeID) [approvalEdge; completeEdge])
    as Hp.
  { rewrite GetOutgoingEdges_filter, (MapRange_values _ _ Hr).
    by rewrite (NewProcess_edges_values _ leave_Edges_NoDup). }
  revert Hp. rewrite !filter_cons, filter_nil.
  change (Edge_SrcID approvalEdge) with "leave_request".
  change (Edge_SrcID completeEdge) with "leave_approval".
  repeat case_decide; subst; try discriminate.
  - apply Permutation_singleton_r.
  - apply Permutation_singleton_r.
  - apply Permutation_nil_r.
Qed.

Section LeaveSteps.

Context {W : Type}.

Lemma leave_step_request iter (s : State W) :
  MapRange (edges (NewProcess createLeaveProcess).1) iter →
  ProcessNode leaveHandler iter "leave_request" s
  = (None, mkState (world s)
             (log s ++ [CallOn leaveRequestNode; CallDecide approvalEdge])).
Proof.
  intros Hr. unfold ProcessNode.
  change (process (@leaveHandler W)) with (NewProcess createLeaveProcess).1.
  rewrite (leave_outgoing _ _ Hr), cons_middle, app_assoc. destruct s as [w l].
  vm_compute. reflexivity.
Qed.

Lemma leave_step_approval iter (s : State W) :
  MapRange (edges (NewProcess createLeaveProcess).1) iter →
  ProcessNode leaveHandler iter "leave_approval" s
  = (None, mkState (world s)
             (log s ++ [CallOn leaveApprovalNode; CallDecide completeEdge])).
Proof.
  intros Hr. unfold ProcessNode.
  change (process (@leaveHandler W)) with (NewProcess createLeaveProcess).1.
  rewrite (leave_outgoing _ _ Hr), cons_middle, app_assoc. destruct s as [w l].
  vm_compute. reflexivity.
Qed.

Lemma leave_step_complete iter (s : State W) :
  MapRange (edges (NewProcess createLeaveProcess).1) iter →
  ProcessNode leaveHandler iter "leave_complete" s
  = (None, mkState (world s) (log s ++ [CallOn leaveCompleteNode])).
Proof.
  intros Hr. unfold ProcessNode.
  change (process (@leaveHandler W)) with (NewProcess createLeaveProcess).1.
  rewrite (leave_outgoing _ _ Hr). destruct s as [w l].
  vm_compute. reflexivity.
Qed.

End LeaveSteps.

Section LeaveTest.

Context {W : Type}.

Lemma leave_edge_accepts (edge : Edge) (s : State W) :
  edge = approvalEdge ∨ edge = completeEdge →
  ProcessEdge leaveHandler edge s
  = ((true, None), mkState (world s) (log s ++ [CallDecide edge])).
Proof. destruct s. by intros [-> | ->]. Qed.

(** X18.  [TestIntegrationLeaveProcess] passes in every run: whatever
    order the three steps range over the edge map in, no check of the test
    fails and nothing panics; the steps call the on-handlers of the three
    nodes and the decision-handlers of the two edges (each edge is decided
    once by the step and once more by the test itself), and nothing
    else. *)
Theorem X18_integration_test_passes (iter1 iter2 iter3 : list string)
    (s : State W) :
  MapRange (edges (NewProcess createLeaveProcess).1) iter1 →
  MapRange (edges (NewProcess createLeaveProcess).1) iter2 →
  MapRange (edges (NewProcess createLeaveProcess).1) iter3 →
  TestIntegrationLeaveProcess iter1 iter2 iter3 s
  = Some (0%nat,
          mkState (world s)
            (log s ++ [CallOn leaveRequestNode; CallDecide approvalEdge;
                       CallDecide approvalEdge;
                       CallOn leaveApprovalNode; CallDecide completeEdge;
                       CallDecide completeEdge;
                       CallOn leaveCompleteNode])).
Proof.
  intros H1 H2 H3. unfold TestIntegrationLeaveProcess.
  rewrite (leave_step_request _ _ H1).
  change (Edges (NewProcess createLeaveProcess).2)
    with [approvalEdge; completeEdge].
  cbn [lookup list_lookup mbind option_bind].
  rewrite (leave_edge_accepts approvalEdge) by (by left).
  change (GetNextNodeByEdge (process leaveHandler) approvalEdge)
    with (@inl Node error leaveApprovalNode).
  change (Node_ID leaveApprovalNode) with "leave_approval".
  cbv beta iota.
  rewrite (leave_step_approval _ _ H2).
  rewrite (leave_edge_accepts completeEdge) by (by right).
  change (GetNextNodeByEdge (process leaveHandler) completeEdge)
    with (@inl Node error leaveCompleteNode).
  change (Node_ID leaveCompleteNode) with "leave_complete".
  cbv beta iota.
  rewrite (leave_step_complete _ _ H3).
  simpl. rewrite <- !app_assoc. reflexivity.
Qed.

End LeaveTest.

(** ** The further properties on concrete runs *)

Lemma X13_unknown_node_fails_witness :
  ProcessNode phAccept declaredOrder "Z" start = (Some (ErrNodeNotFound "Z"), start).
Proof.
  apply (X13_unknown_node_fails demo
           (nodeHooks onOk onOk (demoRegistry onOk acceptLow))
           (Some commitFalse) declaredOrder "Z" start).
  intros n Hn. change (n ∈ [nA; nB; nC]) in Hn.
  apply elem_of_cons in Hn as [->|Hn]; [done|].
  apply elem_of_cons in Hn as [->|Hn]; [done|].
  apply elem_of_cons in Hn as [->|Hn]; [done|].
  by apply elem_of_nil in Hn.
Defined.

Lemma X14_unresolved_destination_after_commit_witness :
  ProcessNode phLost ["e_lost"] "A" start
  = (Some (ErrDestinationUnresolved "e_lost"),
     mkState 1%nat (log (afterDecisions [eLost])
                     ++ [CallAfter nA; CallCirculate eLost])).
Proof.
  refine (X14_unresolved_destination_after_commit phLost ["e_lost"] "A" start
            nA [] eLost [] (afterDecisions []) (afterDecisions [eLost])
            onOk commitFalse 0%nat false 1%nat _ _ _ _ _ _ _); [|run ..].
  exists afterOn. split; [|split; [run | constructor]].
  split; [run|]. exists onOk. split; run.
Defined.

Lemma X15_accept_without_hooks_witness :
  ProcessNode phPlain declaredOrder "A" start = (None, afterDecisions [eHi; eLo]).
Proof.
  refine (proj1 (X15_accept_without_hooks phPlain declaredOrder "A" start nA
                   [eHi] eLo [] (afterDecisions [eHi])
                   (afterDecisions [eHi; eLo]) nC _ _ _ _ _ _));
    [reaches | run ..].
Defined.

Lemma X16_terminal_node_witness :
  ProcessNode phAccept declaredOrder "C" start
  = (None, mkState 0%nat [CallOn nC]).
Proof.
  refine (proj1 (X16_terminal_node demo
                   (nodeHooks onOk onOk (demoRegistry onOk acceptLow))
                   (Some commitFalse) declaredOrder "C" start nC
                   (mkState 0%nat [CallOn nC]) _ _)).
  - split; [run|]. exists onOk. split; run.
  - intros e He. change (e ∈ [eHi; eLo]) in He.
    apply elem_of_cons in He as [->|He]; [done|].
    apply elem_of_cons in He as [->|He]; [done|].
    by apply elem_of_nil in He.
Defined.

Lemma leave_range_declared :
  MapRange (edges (NewProcess createLeaveProcess).1)
           ["approval_edge"; "complete_edge"].
Proof.
  unfold MapRange. vm_compute (map_to_list _).
  first [reflexivity | apply perm_swap].
Defined.

Lemma leave_range_swapped :
  MapRange (edges (NewProcess createLeaveProcess).1)
           ["complete_edge"; "approval_edge"].
Proof.
  unfold MapRange. vm_compute (map_to_list _).
  first [reflexivity | apply perm_swap].
Defined.

Lemma X18_integration_test_passes_witness :
  TestIntegrationLeaveProcess ["approval_edge"; "complete_edge"]
    ["complete_edge"; "approval_edge"] ["approval_edge"; "complete_edge"]
    (mkState tt [])
  = Some (0%nat,
          mkState tt
            [CallOn leaveRequestNode; CallDecide approvalEdge;
             CallDecide approvalEdge;
             CallOn leaveApprovalNode; CallDecide completeEdge;
             CallDecide completeEdge;
             CallOn leaveCompleteNode]).
Proof.
  exact (X18_integration_test_passes _ _ _ (mkState tt [])
           leave_range_declared leave_range_swapped leave_range_declared).
Defined.
